(** * ush: parallel command execution, local and through jump hosts

    A shallow embedding of package [exec] of ush (the local executor of
    [Exec]/[runCmd] with its bounded output sink [lossyWriter], and the
    fan-out executor [JumpExec] with [synchronizedWriter] and the
    ssh-agent handshake parser [sshAgentStdout]), together with the
    properties of these components.

    Conventions.
    - A Go [string] is a [string]; a Go [[]byte] is a [list byte]; the
      conversions [[]byte(s)] and [string(b)] are [list_byte_of_string]
      and [string_of_list_byte].
    - A Go [int] and a [time.Duration] are kept in [Z].  No operation
      below leaves the 64-bit range on values that fit in memory: the
      only arithmetic is on slice lengths, and one division.
    - [len] of a slice or string is a [Z], as in Go; slice expressions
      [p[:i]] and [p[i:]] are [firstn] and [skipn] at [Z.to_nat i].
    - An index expression [a[i]] that is out of range panics in Go; it
      is [nth_error] here and [None] is propagated as a panic.
    - A Go [error] result is an [option]: [None] is [nil]. *)

From Stdlib Require Import ZArith List Bool Lia.
From Stdlib Require Import Strings.Ascii Strings.String Strings.Byte.
From Stdlib Require Import Numbers.DecimalString.
From Stdlib Require Import Sorting.Permutation Sorting.Sorted Sorting.Mergesort.
Import ListNotations.

Local Open Scope string_scope.
Local Open Scope list_scope.
Local Open Scope Z_scope.

(* ================================================================== *)
(** * Go standard library, as far as package [exec] calls it *)
(* ================================================================== *)

(** ** Package [strings] *)
Module strings.

Definition len (s : string) : Z := Z.of_nat (String.length s).

(** [s[:n]] *)
Fixpoint take (n : nat) (s : string) : string :=
  match n, s with
  | S n', String c s' => String c (take n' s')
  | _, _ => EmptyString
  end.

(** [s[n:]] *)
Fixpoint drop (n : nat) (s : string) : string :=
  match n, s with
  | S n', String _ s' => drop n' s'
  | _, _ => s
  end.

(** [strings.Index(s, substr)]: the index of the first instance of
    [substr] in [s], or -1 when there is none. *)
Fixpoint Index (s substr : string) : Z :=
  if String.prefix substr s then 0
  else match s with
       | EmptyString => -1
       | String _ s' =>
           let i := Index s' substr in
           if i <? 0 then -1 else i + 1
       end.

(** The replacement loop of [strings.Replace]: find the next instance
    with [Index], copy what precedes it, write [new], continue after
    the instance.  Go runs the loop [Count(s, old)] times; [fuel]
    bounds the number of iterations here, and [length s] iterations
    always suffice for a non-empty [old] (lemma [replaceLoop_fuel]). *)
Fixpoint replaceLoop (fuel : nat) (s old new : string) : string :=
  match fuel with
  | O => s
  | S fuel' =>
      let j := Index s old in
      if j <? 0 then s
      else take (Z.to_nat j) s ++ new ++
           replaceLoop fuel' (drop (Z.to_nat (j + len old)) s) old new
  end.

(** [strings.Replace(s, old, new, -1)] for a non-empty [old].  (With
    an empty [old] Go inserts [new] around every UTF-8 sequence; that
    branch is not modelled: both callers pass a literal token.) *)
Definition Replace (s old new : string) : string :=
  if String.eqb old new then s
  else replaceLoop (String.length s) s old new.

(** The loop of [genSplit], which [strings.Split] runs with no limit on
    the number of pieces. *)
Fixpoint splitLoop (fuel : nat) (s sep : string) : list string :=
  match fuel with
  | O => [s]
  | S fuel' =>
      let m := Index s sep in
      if m <? 0 then [s]
      else take (Z.to_nat m) s ::
           splitLoop fuel' (drop (Z.to_nat (m + len sep)) s) sep
  end.

(** [strings.Split(s, sep)] for a non-empty [sep]. *)
Definition Split (s sep : string) : list string :=
  splitLoop (String.length s) s sep.

End strings.

(** ** Package [strconv] *)
Module strconv.

(** [strconv.Itoa(i)]: decimal, with a leading minus sign for a
    negative number. *)
Definition Itoa (i : Z) : string := NilZero.string_of_int (Z.to_int i).

End strconv.

(** ** Package [time] *)
Module time.

(** A [time.Duration] counts nanoseconds. *)
Definition Nanosecond : Z := 1.
Definition Microsecond : Z := 1000 * Nanosecond.
Definition Millisecond : Z := 1000 * Microsecond.
Definition Second : Z := 1000 * Millisecond.

Definition digit (d : Z) : ascii := ascii_of_nat (48 + Z.to_nat d).

(** [fmtFrac(buf, v, prec)]: writes the fraction of [v/10^prec] in front
    of [tail], without trailing zeros, and without the decimal point
    when the fraction is zero; returns it with [v/10^prec]. *)
Fixpoint fmtFracLoop (prec : nat) (print : bool) (tail : string) (v : Z)
  : bool * string * Z :=
  match prec with
  | O => (print, tail, v)
  | S prec' =>
      let d := v mod 10 in
      let print' := print || negb (d =? 0) in
      let tail' := if print' then String (digit d) tail else tail in
      fmtFracLoop prec' print' tail' (v / 10)
  end.

Definition fmtFrac (tail : string) (v : Z) (prec : nat) : string * Z :=
  let '(print, tail', v') := fmtFracLoop prec false tail v in
  (if print then String "." tail' else tail', v').

(** [fmtInt(buf, v)]: writes [v] in decimal in front of [tail]. *)
Definition fmtInt (tail : string) (v : Z) : string :=
  NilZero.string_of_uint (N.to_uint (Z.to_N v)) ++ tail.

(** The two bytes of the UTF-8 encoding of the micro sign. *)
Definition micro : string :=
  String (ascii_of_nat 194) (String (ascii_of_nat 181) EmptyString).

(** [Duration.String()]: such as ["72h3m0.5s"], ["1.5ms"] or ["0s"]. *)
Definition DurationString (d : Z) : string :=
  let neg := d <? 0 in
  let u := Z.abs d in
  let body :=
    if u <? Second then
      if u =? 0 then "0s"
      else if u <? Microsecond then
        let '(t, u') := fmtFrac "ns" u 0 in fmtInt t u'
      else if u <? Millisecond then
        let '(t, u') := fmtFrac (micro ++ "s") u 3 in fmtInt t u'
      else
        let '(t, u') := fmtFrac "ms" u 6 in fmtInt t u'
    else
      let '(t, u1) := fmtFrac "s" u 9 in
      let t1 := fmtInt t (u1 mod 60) in
      let u2 := u1 / 60 in
      if 0 <? u2 then
        let t2 := fmtInt (String "m" t1) (u2 mod 60) in
        let u3 := u2 / 60 in
        if 0 <? u3 then fmtInt (String "h" t2) u3 else t2
      else t1
  in
  if neg then String "-" body else body.

End time.

(** ** Package [bytes] *)
Module bytes.

Definition len (p : list byte) : Z := Z.of_nat (List.length p).

(** [bytes.HasPrefix(s, prefix)] *)
Fixpoint HasPrefix (s prefix : list byte) : bool :=
  match prefix, s with
  | [], _ => true
  | c :: prefix', d :: s' => Byte.eqb c d && HasPrefix s' prefix'
  | _ :: _, [] => false
  end.

(** [bytes.Index(s, sep)]: the index of the first instance of [sep] in
    [s], or -1 when there is none. *)
Fixpoint Index (s sep : list byte) : Z :=
  if HasPrefix s sep then 0
  else match s with
       | [] => -1
       | _ :: s' =>
           let i := Index s' sep in
           if i <? 0 then -1 else i + 1
       end.

(** [bytes.Equal(a, b)] *)
Fixpoint Equal (a b : list byte) : bool :=
  match a, b with
  | [], [] => true
  | c :: a', d :: b' => Byte.eqb c d && Equal a' b'
  | _, _ => false
  end.

(** [bytes.SplitN(s, sep, 2)] for a non-empty [sep]: the part before
    and the part after the first instance of [sep], or [s] alone when
    there is no instance. *)
Definition SplitN2 (s sep : list byte) : list (list byte) :=
  let m := Index s sep in
  if m <? 0 then [s]
  else [firstn (Z.to_nat m) s; skipn (Z.to_nat (m + len sep)) s].

End bytes.

(* ================================================================== *)
(** * Package [exec]: the local executor *)
(* ================================================================== *)

(** The line feed, as a string and as a byte slice. *)
Definition LF : string := String (ascii_of_nat 10) EmptyString.
Definition newline : list byte := list_byte_of_string LF.

(** The errors of the package.  The two errors of the handshake parser
    are built with [fmt.Errorf]; they carry the value that Go prints. *)
Inductive error : Type :=
| ErrNoCommand
| ErrNoTimeout
| ErrNoParallel
| ErrNoStdoutBytes
| ErrNoStderrBytes
| ErrNoJumpCommand
| ErrNoJumpHosts
| ErrUnexpectedOutput (line1 : string)
| ErrCannotStat (sock : string).

(** [type Spec struct] *)
Record Spec : Type := {
  Command : string;
  Args : list string;
  Timeout : Z;
  Parallel : Z;
  StdoutBytes : Z;
  StderrBytes : Z;
  FileOrigin : string;
  ServeAddress : string
}.

(** [func (s *Spec) Validate() error] *)
Definition Validate (s : Spec) : option error :=
  if String.eqb (Command s) "" then Some ErrNoCommand
  else if Timeout s <=? 0 then Some ErrNoTimeout
  else if Parallel s <=? 0 then Some ErrNoParallel
  else if StdoutBytes s <=? 0 then Some ErrNoStdoutBytes
  else if StderrBytes s <=? 0 then Some ErrNoStderrBytes
  else None.

(** ** [lossyWriter], the bounded output sink *)
Module lossyWriter.

(** [type lossyWriter struct]; [Buffer] is the content of the
    [bytes.Buffer], whose [Write] always succeeds. *)
Record t : Type := { Limit : Z; Buffer : list byte }.

Definition marker : list byte := list_byte_of_string "[...]".

(** [func (w *lossyWriter) Write(p []byte) (int, error)]: the sink
    after the call, and the two results. *)
Definition Write (w : t) (p : list byte) : t * (Z * option error) :=
  let writeSize := bytes.len p in
  let bufferSize := bytes.len (Buffer w) in
  if bufferSize >=? Limit w then (w, (writeSize, None))
  else
    let nextBufferSize := bufferSize + writeSize in
    let limit :=
      if nextBufferSize >? Limit w then Limit w - bufferSize
      else writeSize in
    let buf := Buffer w ++ firstn (Z.to_nat limit) p in
    let buf' :=
      if bytes.len buf =? Limit w then buf ++ marker else buf in
    ({| Limit := Limit w; Buffer := buf' |}, (writeSize, None)).

(** The sink that [runCmd] allocates: [&lossyWriter{Limit: n, Buffer: &b}]
    over an empty buffer. *)
Definition new (limit : Z) : t := {| Limit := limit; Buffer := [] |}.

(** How [os/exec] feeds a writer that is not a file: it copies what the
    child writes, chunk by chunk, with one [Write] per chunk, and stops
    at the first error or short write. *)
Fixpoint copy (w : t) (chunks : list (list byte)) : t :=
  match chunks with
  | [] => w
  | p :: rest =>
      let '(w', (n, err)) := Write w p in
      match err with
      | Some _ => w'
      | None => if n =? bytes.len p then copy w' rest else w'
      end
  end.

End lossyWriter.

(** [type Result struct], without the three fields read from the clock. *)
Record Result : Type := {
  Target : string;
  ExitStatus : Z;
  Stdout : string;
  Stderr : string;
  Err : string
}.

(** What one child process does, as [runCmd] observes it: the chunks it
    writes to its standard output and to its standard error, and the
    outcome of [oscmd.Run()]: [nil], or an error with its text and, for an
    [*exec.ExitError], its exit status. *)
Record Process : Type := {
  stdoutWrites : list (list byte);
  stderrWrites : list (list byte);
  runErr : option (string * option Z)
}.

(** The name and the arguments that [runCmd] hands to [exec.Command]. *)
Definition runCmdArgv (s : Spec) (target : string) : string * list string :=
  let cmd := strings.Replace (Command s) "{.T}" target in
  let args := map (fun arg => strings.Replace arg "{.T}" target) (Args s) in
  (cmd, args).

(** [func runCmd(ctx, s, target) Result]; [spawn] is the operating system:
    the behaviour of the process started for a name and its arguments. *)
Definition runCmd (spawn : string -> list string -> Process)
                  (s : Spec) (target : string) : Result :=
  let '(cmd, args) := runCmdArgv s target in
  let oscmd := spawn cmd args in
  let stdout := lossyWriter.copy (lossyWriter.new (StdoutBytes s)) (stdoutWrites oscmd) in
  let stderr := lossyWriter.copy (lossyWriter.new (StderrBytes s)) (stderrWrites oscmd) in
  {| Target := target;
     ExitStatus :=
       match runErr oscmd with
       | Some (_, Some status) => status
       | _ => 0
       end;
     Stdout := string_of_list_byte (lossyWriter.Buffer stdout);
     Stderr := string_of_list_byte (lossyWriter.Buffer stderr);
     Err :=
       match runErr oscmd with
       | Some (msg, _) => msg
       | None => ""
       end |}.

(* ================================================================== *)
(** * Package [exec]: the fan-out executor *)
(* ================================================================== *)


(** [type JumpSpec struct]; [JumpSpec_Spec] is the embedded [Spec]. *)
Record JumpSpec : Type := {
  JumpSpec_Spec : Spec;
  JumpHostsKeyFile : string;
  JumpCommand : string;
  JumpHosts : list string
}.

(** [func (s *JumpSpec) Validate() error] *)
Definition JumpValidate (s : JumpSpec) : option error :=
  match Validate (JumpSpec_Spec s) with
  | Some err => Some err
  | None =>
      if String.eqb (JumpCommand s) "" then Some ErrNoJumpCommand
      else if Z.of_nat (List.length (JumpHosts s)) =? 0 then Some ErrNoJumpHosts
      else None
  end.

(** The parallelism that [JumpExec] gives each jump host.  Go divides
    integers with truncation, which is [Z.quot]. *)
Definition jumpParallel (s : JumpSpec) : Z :=
  let parallel :=
    Z.quot (Parallel (JumpSpec_Spec s)) (Z.of_nat (List.length (JumpHosts s))) in
  if parallel =? 0 then 1 else parallel.

(** The options of the nested engine, [ushargs] in [JumpExec]. *)
Definition ushargs (s : JumpSpec) (parallel : Z) : list string :=
  [ "--";
    "ush";
    "exec";
    ("--timeout=" ++ time.DurationString (Timeout (JumpSpec_Spec s)))%string;
    ("--parallel=" ++ strconv.Itoa parallel)%string;
    ("--stdout_bytes=" ++ strconv.Itoa (StdoutBytes (JumpSpec_Spec s)))%string;
    ("--stderr_bytes=" ++ strconv.Itoa (StderrBytes (JumpSpec_Spec s)))%string;
    "--";
    Command (JumpSpec_Spec s) ].

(** The name and the arguments of the remote shell that [JumpExec] starts
    for [host]; [None] when [args[0]] is out of range. *)
Definition jumpArgv (s : JumpSpec) (host : string) : option (string * list string) :=
  let cmd := strings.Replace (JumpCommand s) "{.J}" host in
  let args := strings.Split cmd " " in
  match args with
  | [] => None
  | cmd :: args =>
      let args := args ++ ushargs s (jumpParallel s) in
      let args := args ++ Args (JumpSpec_Spec s) in
      Some (cmd, args)
  end.

(** ** [synchronizedWriter], the line-synchronised sink *)
Module synchronizedWriter.

(** [type synchronizedWriter struct]: the buffer [b] of one sink.  The
    embedded [io.Writer] and [*sync.Mutex] are shared between sinks:
    the content of the underlying writer is passed to the methods and
    returned by them.  The underlying writer is one that accepts every
    write, such as the [bytes.Buffer] of the test; [io.Copy] from a
    [bytes.Buffer] hands it the whole buffer in one write and leaves
    the buffer empty. *)
Record t : Type := { b : list byte }.

(** [func (s *synchronizedWriter) Write(p []byte) (int, error)] *)
Definition Write (under : list byte) (s : t) (p : list byte)
  : list byte * t * (Z * option error) :=
  let idx := bytes.Index p newline in
  if idx =? -1 then (under, {| b := b s ++ p |}, (bytes.len p, None))
  else if idx =? 0 then (under, s, (bytes.len p, None))
  else
    let b1 := b s ++ firstn (Z.to_nat idx) p in
    let under' := under ++ b1 in
    (under', {| b := skipn (Z.to_nat idx) p |}, (bytes.len p, None)).

(** [func (s *synchronizedWriter) Flush() error] *)
Definition Flush (under : list byte) (s : t) : list byte * t * option error :=
  (under ++ b s, {| b := [] |}, None).

Definition new : t := {| b := [] |}.

End synchronizedWriter.

(** Several sinks over one underlying writer and one mutex, as [JumpExec]
    creates them (one per jump host).  [origin] is ghost state: for every
    byte of the underlying writer, the sink that wrote it. *)
Record Shared : Type := {
  under : list byte;
  origin : list nat;
  sinks : nat -> synchronizedWriter.t
}.

Inductive Call : Type :=
| CallWrite (i : nat) (p : list byte)
| CallFlush (i : nat).

Definition setSink (f : nat -> synchronizedWriter.t) (i : nat)
                   (s : synchronizedWriter.t) : nat -> synchronizedWriter.t :=
  fun j => if Nat.eqb i j then s else f j.

Definition grown (i : nat) (before after : list byte) : list nat :=
  repeat i (List.length after - List.length before)%nat.

(** One method call on sink [i], run to completion. *)
Definition step (st : Shared) (c : Call) : Shared :=
  match c with
  | CallWrite i p =>
      let '(under', s', _) := synchronizedWriter.Write (under st) (sinks st i) p in
      {| under := under';
         origin := origin st ++ grown i (under st) under';
         sinks := setSink (sinks st) i s' |}
  | CallFlush i =>
      let '(under', s', _) := synchronizedWriter.Flush (under st) (sinks st i) in
      {| under := under';
         origin := origin st ++ grown i (under st) under';
         sinks := setSink (sinks st) i s' |}
  end.

Definition initShared : Shared :=
  {| under := []; origin := []; sinks := fun _ => synchronizedWriter.new |}.

(** A schedule in which the calls of the sinks follow each other. *)
Definition runCalls (cs : list Call) : Shared := fold_left step cs initShared.

(** Some byte that is not a line feed is directly followed by a byte of
    another sink: a line of one sink is cut by the bytes of another. *)
Fixpoint cutsLine (w : list (nat * byte)) : bool :=
  match w with
  | (i, c) :: rest =>
      match rest with
      | (j, _) :: _ =>
          (negb (Byte.eqb c x0a) && negb (Nat.eqb i j)) || cutsLine rest
      | [] => false
      end
  | [] => false
  end.

(** ** [sshAgentStdout], the parser of the agent's first line *)
Module sshAgentStdout.

(** [type sshAgentStdout struct]; the channel [authsock] is written at
    most once, and that value is returned beside the results. *)
Record t : Type := { done : bool; b : list byte }.

Definition new : t := {| done := false; b := [] |}.

(** The results of a call: [(n, err)], or a run-time panic. *)
Inductive ret : Type :=
| Return (n : Z) (err : option error)
| Panic.

(** The first line of the buffer, [bytes.SplitN(s.b.Bytes(), "\n", 2)[0]]. *)
Definition line1 (buf : list byte) : option (list byte) :=
  nth_error (bytes.SplitN2 buf newline) 0.

(** [bytes.SplitN(line1, []byte("="), 2)] *)
Definition parts (line1 : list byte) : list (list byte) :=
  bytes.SplitN2 line1 (list_byte_of_string "=").

(** The condition of the [if] that rejects a line:
    [len(parts) != 2 && !bytes.Equal(parts[0], []byte("SSH_AUTH_SOCK"))];
    [parts[0]] is evaluated only when the left operand holds. *)
Definition rejects (parts : list (list byte)) : option bool :=
  if negb (Z.of_nat (List.length parts) =? 2) then
    match nth_error parts 0 with
    | Some parts0 =>
        Some (negb (bytes.Equal parts0 (list_byte_of_string "SSH_AUTH_SOCK")))
    | None => None
    end
  else Some false.

Section Write.

(** [os.Stat(sock)] succeeds. *)
Variable Stat : string -> bool.

(** [func (s *sshAgentStdout) Write(p []byte) (int, error)]: the
    parser after the call, the value sent on [authsock] if any, and
    the results. *)
Definition Write (s : t) (p : list byte) : t * option string * ret :=
  if done s then (s, None, Return (bytes.len p) None)
  else
    let idx := bytes.Index p newline in
    let s1 := {| done := done s; b := b s ++ p |} in
    let n := bytes.len p in
    if idx =? -1 then (s1, None, Return n None)
    else
      match line1 (b s1) with
      | None => (s1, None, Panic)
      | Some l1 =>
          let ps := parts l1 in
          match rejects ps with
          | None => (s1, None, Panic)
          | Some true =>
              (s1, None,
               Return 0 (Some (ErrUnexpectedOutput (string_of_list_byte l1))))
          | Some false =>
              match nth_error ps 1 with
              | None => (s1, None, Panic)
              | Some parts1 =>
                  match nth_error (bytes.SplitN2 parts1 (list_byte_of_string ";")) 0 with
                  | None => (s1, None, Panic)
                  | Some sockb =>
                      let sock := string_of_list_byte sockb in
                      if Stat sock then
                        ({| done := true; b := b s1 |}, Some sock,
                         Return (bytes.len p) None)
                      else (s1, None, Return 0 (Some (ErrCannotStat sock)))
                  end
              end
          end
      end.

End Write.

End sshAgentStdout.

(** What the reader of [newLogWriter] writes to the standard error of
    the engine, for the lines that its scanner returns:
    [fmt.Fprintf(os.Stderr, "%s: %s", jumphost, scanner.Text())] for
    each line. *)
Definition logWritten (jumphost : string) (lines : list string) : string :=
  String.concat "" (map (fun text => jumphost ++ ": " ++ text)%string lines).

(** The copy that [os/exec] runs from the stdout of a remote shell into
    its sink: one [Write] per chunk, until an error or a short write. *)
Fixpoint sinkCopy (out : list byte) (s : synchronizedWriter.t)
                  (chunks : list (list byte)) : list byte * synchronizedWriter.t :=
  match chunks with
  | [] => (out, s)
  | p :: rest =>
      let '(out', s', (n, err)) := synchronizedWriter.Write out s p in
      match err with
      | Some _ => (out', s')
      | None => if n =? bytes.len p then sinkCopy out' s' rest else (out', s')
      end
  end.

(** The write begins with a line feed. *)
Definition leadingNewline (p : list byte) : bool :=
  match p with
  | c :: _ => Byte.eqb x0a c
  | [] => false
  end.

(** The bytes that the calls of a schedule hand to sink [i], without the
    writes that begin with a line feed. *)
Definition writtenTo (i : nat) (cs : list Call) : list byte :=
  List.concat
    (map (fun c =>
            match c with
            | CallWrite j p =>
                if Nat.eqb j i && negb (leadingNewline p) then p else []
            | CallFlush _ => []
            end) cs).

(** The bytes of the underlying writer that sink [i] wrote, in the order
    in which they stand there. *)
Definition drainedBy (i : nat) (st : Shared) : list byte :=
  map snd (filter (fun x => Nat.eqb (fst x) i) (combine (origin st) (under st))).

(** The copy that [os/exec] runs from the stdout of the agent into the
    parser: one [Write] per chunk, until an error, a short write or a
    panic; with the parser, the values sent on [authsock], in order. *)
Fixpoint agentCopy (Stat : string -> bool) (s : sshAgentStdout.t)
                   (chunks : list (list byte)) : sshAgentStdout.t * list string :=
  match chunks with
  | [] => (s, [])
  | p :: rest =>
      let '(s', sent, r) := sshAgentStdout.Write Stat s p in
      let sent1 := match sent with Some sock => [sock] | None => [] end in
      match r with
      | sshAgentStdout.Return n None =>
          if n =? bytes.len p then
            let '(s'', sent2) := agentCopy Stat s' rest in (s'', sent1 ++ sent2)
          else (s', sent1)
      | _ => (s', sent1)
      end
  end.


(* ================================================================== *)
(** * Package [strutil] *)
(* ================================================================== *)

(** The order of [sort.Strings]: strings compare byte by byte. *)
Module StringOrder <: Orders.TotalLeBool.
Definition t : Type := string.
Definition leb : string -> string -> bool := String.leb.
Theorem leb_total (x y : string) : leb x y = true \/ leb y x = true.
Proof. apply String.leb_total. Qed.
End StringOrder.

Module StringSort := Mergesort.Sort StringOrder.

Module strutil.

(** [type StringSet map[string]struct{}]: the keys of the map, each one
    once.  The order of the list stands for the order in which Go
    iterates over the map, which is not specified. *)
Definition StringSet : Type := list string.

(** [_, exists := s[v]] *)
Definition has (s : StringSet) (v : string) : bool := existsb (String.eqb v) s.

(** [s[v] = struct{}{}] *)
Definition set1 (s : StringSet) (v : string) : StringSet :=
  if has s v then s else s ++ [v].

(** [delete(s, v)] *)
Definition delete1 (s : StringSet) (v : string) : StringSet :=
  filter (fun k => negb (String.eqb v k)) s.

(** [func (s StringSet) Add(v ...string)] *)
Definition Add (s : StringSet) (v : list string) : StringSet :=
  fold_left set1 v s.

(** [func NewStringSet(v ...string) StringSet] *)
Definition NewStringSet (v : list string) : StringSet := Add [] v.

(** [func (s StringSet) Remove(v ...string)] *)
Definition Remove (s : StringSet) (v : list string) : StringSet :=
  fold_left delete1 v s.

(** [func (s StringSet) Contains(v ...string) bool] *)
Fixpoint Contains (s : StringSet) (v : list string) : bool :=
  match v with
  | [] => false
  | vv :: rest => if has s vv then true else Contains s rest
  end.

(** [func (s StringSet) SortedStrings() []string].  Equal strings cannot
    be told apart, so the result of [sort.Strings] does not depend on
    the algorithm. *)
Definition SortedStrings (s : StringSet) : list string := StringSort.sort s.

(** The loop of [NewStringSetFromFile] over the lines that the scanner
    returns; [None] when [t[0]] is out of range. *)
Fixpoint addLines (s : StringSet) (lines : list string) : option StringSet :=
  match lines with
  | [] => Some s
  | t :: rest =>
      if strings.len t =? 0 then addLines s rest
      else match String.get 0 t with
           | None => None
           | Some c =>
               if Ascii.eqb c "#" then addLines s rest
               else addLines (Add s [t]) rest
           end
  end.

(** [func NewStringSetFromFile(name string) (StringSet, error)] on a file
    that can be opened and read, given by its lines. *)
Definition NewStringSetFromFile (lines : list string) : option StringSet :=
  addLines (NewStringSet []) lines.

(** [func Unique(s []string) []string] *)
Definition Unique (s : list string) : list string :=
  SortedStrings (NewStringSet s).

(** [func Merge(lists ...[]string) StringSet] *)
Definition Merge (lists : list (list string)) : StringSet :=
  fold_left (fun set list => Add set list) lists (NewStringSet []).

(** [func Intersect(lists ...[]string) StringSet] *)
Definition Intersect (lists : list (list string)) : StringSet :=
  let all := map NewStringSet lists in
  fold_left
    (fun intersection listA =>
       fold_left
         (fun intersection k =>
            let exists_ := forallb (fun listB => Contains listB [k]) all in
            if exists_ then Add intersection [k] else intersection)
         listA intersection)
    all (NewStringSet []).

End strutil.

(* ================================================================== *)
(** * Package [exec]: reading the targets *)
(* ================================================================== *)

(** The test of the loop of [Read] that makes it skip a line:
    [t == "" || t[0] == '#' || (exclude != nil && exclude.Contains(t))];
    [exclude] is [None] for a nil set; the result is [None] when [t[0]]
    is out of range. *)
Definition skipsLine (t : string) (exclude : option strutil.StringSet) : option bool :=
  if String.eqb t "" then Some true
  else match String.get 0 t with
       | None => None
       | Some c =>
           if Ascii.eqb c "#" then Some true
           else match exclude with
                | None => Some false
                | Some set => Some (strutil.Contains set [t])
                end
       end.

(** [func Read(ctx, r, exclude) <-chan string]: the targets sent on the
    channel, in order, for the lines that the scanner returns from [r],
    when the context is not cancelled; [None] for a panic. *)
Fixpoint Read (lines : list string) (exclude : option strutil.StringSet)
  : option (list string) :=
  match lines with
  | [] => Some []
  | t :: rest =>
      match skipsLine t exclude with
      | None => None
      | Some true => Read rest exclude
      | Some false =>
          match Read rest exclude with
          | None => None
          | Some targets => Some (t :: targets)
          end
      end
  end.

(** The lines that [Read] passes on. *)
Definition isTarget (exclude : option strutil.StringSet) (t : string) : bool :=
  match t with
  | EmptyString => false
  | String c _ =>
      negb (Ascii.eqb c "#") &&
      match exclude with
      | None => true
      | Some set => negb (strutil.has set t)
      end
  end.

(** The jump hosts that the [exec] command passes to [JumpExec]:
    [hosts.Remove(exclude.SortedStrings()...)], then
    [hosts.SortedStrings()]; [exclude] is nil without an exclusion
    file. *)
Definition jumpHostsOf (hosts : strutil.StringSet)
                       (exclude : option strutil.StringSet) : list string :=
  let excluded :=
    match exclude with
    | None => []
    | Some set => strutil.SortedStrings set
    end in
  strutil.SortedStrings (strutil.Remove hosts excluded).

(* ================================================================== *)
(** * Package [freq] *)
(* ================================================================== *)

Module freq.

(** The map [m] of [resultsReader.Read], from a key to the targets that
    have it: the entries in the order in which their keys were first
    seen. *)
Definition groups : Type := list (string * list string).

(** One round of the loop of [Read] after decoding: the target of the
    result is appended to the targets of its key. *)
Fixpoint record (m : groups) (k target : string) : groups :=
  match m with
  | [] => [(k, [target])]
  | (k', targets) :: m' =>
      if String.eqb k' k then (k', targets ++ [target]) :: m'
      else (k', targets) :: record m' k target
  end.

(** The loop of [resultsReader.Read] over the results that the decoder
    returns. *)
Definition collect (KeyReader : Result -> string) (results : list Result) : groups :=
  fold_left (fun m result => record m (KeyReader result) (Target result))
            results [].

(** [type Item struct], without [Freq], which is computed in floating
    point. *)
Record Item : Type := { Value : string; Targets : list string }.

(** The items that [Read] builds from the map, before it sorts them. *)
Definition items (m : groups) : list Item :=
  map (fun e => {| Value := fst e; Targets := snd e |}) m.

(** The targets recorded for a key. *)
Fixpoint targetsOf (m : groups) (k : string) : option (list string) :=
  match m with
  | [] => None
  | (k', targets) :: m' => if String.eqb k' k then Some targets else targetsOf m' k
  end.

(** The key readers of [ExitStatus], [Stdout] and [Stderr]. *)
Definition exitStatusKey (result : Result) : string :=
  strconv.Itoa (ExitStatus result).
Definition stdoutKey (result : Result) : string := Stdout result.
Definition stderrKey (result : Result) : string := Stderr result.

End freq.

(* ================================================================== *)
(** * The values of the package's tests *)
(* ================================================================== *)

(** A [Spec] whose other fields have their zero value. *)
Definition mkSpec (command : string) (args : list string)
                  (timeout parallel stdoutBytes stderrBytes : Z) : Spec :=
  {| Command := command; Args := args; Timeout := timeout;
     Parallel := parallel; StdoutBytes := stdoutBytes;
     StderrBytes := stderrBytes; FileOrigin := ""; ServeAddress := "" |}.

(** The six cases of [TestSpecValidate], in order. *)
Definition validateCases : list Spec :=
  [ mkSpec "" [] 0 0 0 0;
    mkSpec "a" [] 0 0 0 0;
    mkSpec "a" [] 1 0 0 0;
    mkSpec "a" [] 1 1 0 0;
    mkSpec "a" [] 1 1 1 0;
    mkSpec "a" [] 1 1 1 1 ].

(** The [Spec] of [TestExec]. *)
Definition testExecSpec : Spec :=
  mkSpec "echo" ["{.T}"] (1 * time.Second) 1 5 1024.

(** A valid [Spec] whose command is the target itself. *)
Definition targetAsCommand : Spec :=
  mkSpec "{.T}" ["-l"] (1 * time.Second) 1 1024 1024.

(** The [JumpSpec] of [TestJumpExec]. *)
Definition testJumpSpec : JumpSpec :=
  {| JumpSpec_Spec := mkSpec "echo" ["{.T}"] (1 * time.Second) 1 1024 1024;
     JumpHostsKeyFile := "";
     JumpCommand := "echo {.J}";
     JumpHosts := ["localhost"] |}.

(** A JumpSpec with the default values of the flags of the [exec]
    command, ten workers and three jump hosts. *)
Definition fanoutJumpSpec : JumpSpec :=
  {| JumpSpec_Spec :=
       mkSpec "ssh" ["user@{.T}"; "--"; "hostid"] (60 * time.Second) 10 4096 4096;
     JumpHostsKeyFile := "";
     JumpCommand := "ssh -A -oBatchMode=yes -oConnectTimeout=10 {.J}";
     JumpHosts := ["jump1"; "jump2"; "jump3"] |}.

(** [[]byte("...")] *)
Definition bytesOf (s : string) : list byte := list_byte_of_string s.

(** The program [echo], as a child process: it writes its arguments,
    separated by spaces and followed by a line feed, in one chunk, and
    exits with status 0. *)
Definition echo (cmd : string) (args : list string) : Process :=
  {| stdoutWrites := [bytesOf (String.concat " " args ++ LF)];
     stderrWrites := [];
     runErr := None |}.

(* ================================================================== *)
(** * Properties of the library functions *)
(* ================================================================== *)

(** The library functions on the values that the tests exercise. *)
Example DurationString_ex :
  time.DurationString (1 * time.Second) = "1s" /\
  time.DurationString (72 * 3600 * time.Second + 3 * 60 * time.Second
                       + 500 * time.Millisecond) = "72h3m0.5s" /\
  time.DurationString 1500000 = "1.5ms" /\
  time.DurationString 0 = "0s".
Proof. repeat split. Qed.

Example Itoa_ex :
  strconv.Itoa 1024 = "1024" /\ strconv.Itoa 0 = "0" /\ strconv.Itoa (-7) = "-7".
Proof. repeat split. Qed.

Example Replace_ex :
  strings.Replace "a{.T}b{.T}" "{.T}" "xy" = "axybxy" /\
  strings.Replace "ssh -A {.J}" "{.J}" "jump1" = "ssh -A jump1".
Proof. repeat split. Qed.

Example Split_ex : strings.Split "ssh -A  x" " " = ["ssh"; "-A"; ""; "x"].
Proof. reflexivity. Qed.

Example SplitN2_ex :
  bytes.SplitN2 (list_byte_of_string "k=v=w") (list_byte_of_string "=")
    = [list_byte_of_string "k"; list_byte_of_string "v=w"] /\
  bytes.SplitN2 (list_byte_of_string "kv") (list_byte_of_string "=")
    = [list_byte_of_string "kv"] /\
  bytes.SplitN2 [] (list_byte_of_string "=") = [[]].
Proof. repeat split. Qed.

Section StringsFacts.

Lemma prefix_length (a s : string) :
  String.prefix a s = true -> (String.length a <= String.length s)%nat.
Proof.
  revert s; induction a as [|c a IH]; intros s H; simpl; [lia|].
  destruct s as [|d s]; simpl in *; [discriminate|].
  destruct (Ascii.ascii_dec c d); [|discriminate].
  apply IH in H. lia.
Qed.

Lemma prefix_split (a s : string) :
  String.prefix a s = true -> exists r, s = (a ++ r)%string.
Proof.
  revert s; induction a as [|c a IH]; intros s H; simpl.
  - now exists s.
  - destruct s as [|d s]; simpl in *; [discriminate|].
    destruct (Ascii.ascii_dec c d) as [->|]; [|discriminate].
    destruct (IH _ H) as [r ->]. now exists r.
Qed.

Lemma prefix_nonempty_nil (a : string) :
  a <> EmptyString -> String.prefix a EmptyString = false.
Proof. destruct a; [congruence|reflexivity]. Qed.

Lemma strings_Index_eq (s sub : string) :
  strings.Index s sub =
    if String.prefix sub s then 0
    else match s with
         | EmptyString => -1
         | String _ s' =>
             if strings.Index s' sub <? 0 then -1
             else strings.Index s' sub + 1
         end.
Proof. destruct s; reflexivity. Qed.

Lemma strings_Index_lower (s sub : string) : -1 <= strings.Index s sub.
Proof.
  induction s as [|c s IH]; rewrite strings_Index_eq;
    destruct (String.prefix sub _); try lia.
  destruct (strings.Index s sub <? 0) eqn:E; [lia|].
  apply Z.ltb_ge in E. lia.
Qed.

Lemma strings_Index_upper (s sub : string) :
  0 <= strings.Index s sub ->
  strings.Index s sub + strings.len sub <= strings.len s.
Proof.
  unfold strings.len.
  induction s as [|c s IH]; rewrite strings_Index_eq;
    destruct (String.prefix sub _) eqn:P; try lia;
    try (apply prefix_length in P; cbn [String.length] in *; lia).
  destruct (strings.Index s sub <? 0) eqn:E; [lia|].
  apply Z.ltb_ge in E. specialize (IH E). cbn [String.length]. lia.
Qed.

(** [Index] finds an instance only where there is one. *)
Lemma strings_Index_found (s sub : string) :
  0 <= strings.Index s sub ->
  exists a r, s = (a ++ sub ++ r)%string.
Proof.
  induction s as [|c s IH]; rewrite strings_Index_eq;
    destruct (String.prefix sub _) eqn:P; try lia;
    try (intros _; destruct (prefix_split _ _ P) as [r Hr];
         exists EmptyString, r; exact Hr).
  destruct (strings.Index s sub <? 0) eqn:E; [lia|].
  apply Z.ltb_ge in E. intros _.
  destruct (IH E) as (a & r & ->).
  now exists (String c a), r.
Qed.

Lemma prefix_drop (a s : string) :
  String.prefix a s = true ->
  s = (a ++ strings.drop (String.length a) s)%string.
Proof.
  revert s; induction a as [|c a IH]; intros s H.
  - destruct s; reflexivity.
  - destruct s as [|d s]; simpl in *; [discriminate|].
    destruct (Ascii.ascii_dec c d) as [->|]; [|discriminate].
    f_equal. now apply IH.
Qed.

(** [Index] returns the position of an instance: the string is what
    precedes the position, the instance, and the rest. *)
Lemma strings_Index_split (s sub : string) :
  0 <= strings.Index s sub ->
  s = (strings.take (Z.to_nat (strings.Index s sub)) s ++ sub ++
       strings.drop (Z.to_nat (strings.Index s sub + strings.len sub)) s)%string.
Proof.
  unfold strings.len.
  induction s as [|c s IH]; rewrite strings_Index_eq;
    destruct (String.prefix sub _) eqn:P; try lia;
    try (intros _; rewrite Z.add_0_l, Nat2Z.id; now apply prefix_drop).
  destruct (strings.Index s sub <? 0) eqn:E; [lia|].
  apply Z.ltb_ge in E. intros _.
  replace (Z.to_nat (strings.Index s sub + 1))
    with (S (Z.to_nat (strings.Index s sub))) by lia.
  replace (Z.to_nat (strings.Index s sub + 1 + Z.of_nat (String.length sub)))
    with (S (Z.to_nat (strings.Index s sub + Z.of_nat (String.length sub))))
    by lia.
  cbn [strings.take strings.drop String.append]. f_equal. now apply IH.
Qed.

Lemma length_drop (n : nat) (s : string) :
  String.length (strings.drop n s) = (String.length s - n)%nat.
Proof.
  revert s; induction n as [|n IH]; intros [|c s]; simpl; auto.
Qed.

(** The loop of [Replace] has stopped by itself after [length s]
    rounds: more fuel changes nothing. *)
Lemma replaceLoop_fuel (old new : string) :
  old <> EmptyString ->
  forall (f1 f2 : nat) (s : string),
    (String.length s <= f1)%nat -> (String.length s <= f2)%nat ->
    strings.replaceLoop f1 s old new = strings.replaceLoop f2 s old new.
Proof.
  intros Hold.
  assert (Hstop : forall f s, String.length s = 0%nat ->
                    strings.replaceLoop f s old new = s).
  { intros [|f] s Hs; [reflexivity|]. destruct s; [|discriminate].
    cbn [strings.replaceLoop strings.splitLoop].
    rewrite strings_Index_eq, prefix_nonempty_nil by assumption.
    reflexivity. }
  induction f1 as [|f1 IH]; intros f2 s H1 H2.
  - rewrite (Hstop f2) by lia. reflexivity.
  - destruct f2 as [|f2]; [now rewrite (Hstop (S f1)) by lia|].
    cbn [strings.replaceLoop]. destruct (strings.Index s old <? 0) eqn:E; [reflexivity|].
    apply Z.ltb_ge in E. pose proof (strings_Index_upper _ _ E) as U.
    assert (0 < strings.len old).
    { unfold strings.len. destruct old; [congruence|simpl; lia]. }
    do 2 f_equal. unfold strings.len in *.
    apply IH; rewrite length_drop; lia.
Qed.


(** Without an instance of [old], [Replace] returns its argument. *)
Lemma Replace_absent (s old new : string) :
  strings.Index s old < 0 -> strings.Replace s old new = s.
Proof.
  intros H. unfold strings.Replace.
  destruct (String.eqb old new); [reflexivity|].
  destruct (String.length s); cbn [strings.replaceLoop]; [reflexivity|].
  apply Z.ltb_lt in H. now rewrite H.
Qed.

(** At the first instance of [old], [Replace] writes [new] and goes on
    behind the instance. *)
Lemma Replace_step (s old new : string) :
  old <> EmptyString -> old <> new ->
  0 <= strings.Index s old ->
  strings.Replace s old new =
    (strings.take (Z.to_nat (strings.Index s old)) s ++ new ++
     strings.Replace
       (strings.drop (Z.to_nat (strings.Index s old + strings.len old)) s)
       old new)%string.
Proof.
  intros Hold Hneq H. unfold strings.Replace.
  apply String.eqb_neq in Hneq. rewrite Hneq.
  pose proof (strings_Index_upper _ _ H) as U.
  assert (0 < strings.len old).
  { unfold strings.len. destruct old; [congruence|simpl; lia]. }
  destruct (String.length s) eqn:L.
  - unfold strings.len in *. lia.
  - cbn [strings.replaceLoop]. apply Z.ltb_ge in H. rewrite H.
    do 2 f_equal. unfold strings.len in *.
    apply replaceLoop_fuel; [assumption| |]; rewrite length_drop; lia.
Qed.

Lemma Split_nonempty (s sep : string) : strings.Split s sep <> [].
Proof.
  unfold strings.Split.
  destruct (String.length s); cbn [strings.splitLoop]; [discriminate|].
  destruct (strings.Index s sep <? 0); discriminate.
Qed.

End StringsFacts.

(* ================================================================== *)
(** * The local executor *)
(* ================================================================== *)

(** C9. [Spec.Validate] checks Command, Timeout, Parallel, StdoutBytes and
    StderrBytes in this order and returns the error of the first field
    that is not set: the six cases of the test give ErrNoCommand,
    ErrNoTimeout, ErrNoParallel, ErrNoStdoutBytes, ErrNoStderrBytes and
    nil; each error is returned exactly when its field is the first one
    violated; nil is returned exactly when Command is not empty and the
    four numbers are strictly positive. *)
Theorem Validate_cascade :
  map Validate validateCases =
    [ Some ErrNoCommand; Some ErrNoTimeout; Some ErrNoParallel;
      Some ErrNoStdoutBytes; Some ErrNoStderrBytes; None ] /\
  forall s : Spec,
    (Validate s = Some ErrNoCommand <-> Command s = "") /\
    (Validate s = Some ErrNoTimeout <->
       Command s <> "" /\ Timeout s <= 0) /\
    (Validate s = Some ErrNoParallel <->
       Command s <> "" /\ 0 < Timeout s /\ Parallel s <= 0) /\
    (Validate s = Some ErrNoStdoutBytes <->
       Command s <> "" /\ 0 < Timeout s /\ 0 < Parallel s /\
       StdoutBytes s <= 0) /\
    (Validate s = Some ErrNoStderrBytes <->
       Command s <> "" /\ 0 < Timeout s /\ 0 < Parallel s /\
       0 < StdoutBytes s /\ StderrBytes s <= 0) /\
    (Validate s = None <->
       Command s <> "" /\ 0 < Timeout s /\ 0 < Parallel s /\
       0 < StdoutBytes s /\ 0 < StderrBytes s).
Proof.
  split; [reflexivity|].
  intros s. unfold Validate.
  destruct (String.eqb_spec (Command s) "");
    destruct (Z.leb_spec (Timeout s) 0);
    destruct (Z.leb_spec (Parallel s) 0);
    destruct (Z.leb_spec (StdoutBytes s) 0);
    destruct (Z.leb_spec (StderrBytes s) 0);
    repeat split; intros; try discriminate; try tauto; try lia;
    try (repeat match goal with H : _ /\ _ |- _ => destruct H end;
         first [contradiction | lia]).
Qed.

(** C1, as stated, fails: the command name is templated too.  With the
    valid Spec whose Command is the token itself and the target "ls",
    the program that [runCmd] starts is "ls", not the Command. *)
Lemma runCmd_command_is_templated :
  Validate targetAsCommand = None /\
  fst (runCmdArgv targetAsCommand "ls") = "ls" /\
  fst (runCmdArgv targetAsCommand "ls") <> Command targetAsCommand.
Proof. repeat split. discriminate. Qed.

(** C1, amended.  [runCmd] substitutes the target for the token in the
    command name and in every argument alike: a Command with an instance
    of the token runs with the target in the place of the first instance
    and the rest templated in the same way; a Command without the token,
    such as "echo", runs verbatim; the arguments keep their number and
    order, each one templated. *)
Theorem runCmdArgv_templates (s : Spec) (target : string) :
  let tok := "{.T}" in
  let cmd := fst (runCmdArgv s target) in
  let args := snd (runCmdArgv s target) in
  (0 <= strings.Index (Command s) tok ->
   cmd = (strings.take (Z.to_nat (strings.Index (Command s) tok)) (Command s)
          ++ target ++
          strings.Replace
            (strings.drop
               (Z.to_nat (strings.Index (Command s) tok + strings.len tok))
               (Command s))
            tok target)%string) /\
  ((forall a r, Command s <> (a ++ tok ++ r)%string) -> cmd = Command s) /\
  (Command s = "echo" -> cmd = "echo") /\
  List.length args = List.length (Args s) /\
  (forall (i : nat) (arg : string),
      nth_error (Args s) i = Some arg ->
      nth_error args i = Some (strings.Replace arg tok target)).
Proof.
  cbv zeta. unfold runCmdArgv; cbn [fst snd].
  assert (Habsent : (forall a r, Command s <> (a ++ "{.T}" ++ r)%string) ->
                    strings.Replace (Command s) "{.T}" target = Command s).
  { intros H. apply Replace_absent.
    destruct (Z.lt_ge_cases (strings.Index (Command s) "{.T}") 0) as [|Hge];
      [assumption|].
    destruct (strings_Index_found _ _ Hge) as (a & r & E).
    now elim (H a r). }
  split; [|split; [|split; [|split]]].
  - intros H.
    destruct (String.eqb_spec "{.T}" target) as [<-|Hneq].
    + unfold strings.Replace at 1. cbn [String.eqb Ascii.eqb Bool.eqb].
      unfold strings.Replace.
      change (String.eqb "{.T}" "{.T}") with true. cbv iota.
      exact (strings_Index_split _ _ H).
    + rewrite Replace_step at 1 by (assumption || discriminate).
      reflexivity.
  - exact Habsent.
  - intros E. rewrite E. apply Replace_absent. reflexivity.
  - apply length_map.
  - intros i arg H. now rewrite nth_error_map, H.
Qed.

(** The amended C1 at the Spec of [TestExec]: "echo" runs as "echo", with
    the target as its only argument. *)
Lemma runCmdArgv_templates_witness :
  fst (runCmdArgv testExecSpec "hello world") = Command testExecSpec /\
  nth_error (snd (runCmdArgv testExecSpec "hello world")) 0 = Some "hello world".
Proof.
  split.
  - apply (proj1 (proj2 (proj2 (runCmdArgv_templates testExecSpec "hello world")))).
    reflexivity.
  - apply (proj2 (proj2 (proj2 (proj2 (runCmdArgv_templates testExecSpec "hello world")))) 0%nat "{.T}").
    reflexivity.
Defined.

(** ** The bounded output sink *)

Section LossyWriterFacts.

Import lossyWriter.

Lemma marker_len : bytes.len marker = 5.
Proof. reflexivity. Qed.

(** [Write] reports the whole input as written, without an error. *)
Lemma Write_results (w : t) (p : list byte) :
  snd (Write w p) = (bytes.len p, None).
Proof.
  unfold Write. destruct (bytes.len (Buffer w) >=? Limit w); reflexivity.
Qed.

Lemma Write_Limit (w : t) (p : list byte) : Limit (fst (Write w p)) = Limit w.
Proof.
  unfold Write. destruct (bytes.len (Buffer w) >=? Limit w); reflexivity.
Qed.

(** A sink that holds [Limit] bytes or more ignores what it is given. *)
Lemma Write_saturated (w : t) (p : list byte) :
  Limit w <= bytes.len (Buffer w) -> fst (Write w p) = w.
Proof.
  intros H. unfold Write.
  destruct (Z.geb_spec (bytes.len (Buffer w)) (Limit w)); [reflexivity|lia].
Qed.

(** Below the limit the input is appended as it is. *)
Lemma Write_fits (w : t) (p : list byte) :
  bytes.len (Buffer w) + bytes.len p < Limit w ->
  Buffer (fst (Write w p)) = Buffer w ++ p.
Proof.
  intros H. unfold Write, bytes.len in *.
  destruct (Z.geb_spec (Z.of_nat (List.length (Buffer w))) (Limit w)); [lia|].
  destruct (Z.gtb_spec (Z.of_nat (List.length (Buffer w)) + Z.of_nat (List.length p))
                       (Limit w)); [lia|].
  rewrite Nat2Z.id, firstn_all. cbn [fst Buffer].
  destruct (Z.eqb_spec (Z.of_nat (List.length (Buffer w ++ p))) (Limit w)) as [E|];
    [|reflexivity].
  rewrite length_app in E. lia.
Qed.

(** A write that reaches or crosses the limit is cut at the limit and
    followed by the marker. *)
Lemma Write_fills (w : t) (p : list byte) :
  bytes.len (Buffer w) < Limit w ->
  Limit w <= bytes.len (Buffer w) + bytes.len p ->
  Buffer (fst (Write w p)) =
    Buffer w ++ firstn (Z.to_nat (Limit w - bytes.len (Buffer w))) p ++ marker.
Proof.
  intros H1 H2. unfold Write, bytes.len in *.
  destruct (Z.geb_spec (Z.of_nat (List.length (Buffer w))) (Limit w)); [lia|].
  set (k := Z.to_nat (Limit w - Z.of_nat (List.length (Buffer w)))).
  assert (Hk : (k <= List.length p)%nat) by lia.
  destruct (Z.gtb_spec (Z.of_nat (List.length (Buffer w)) + Z.of_nat (List.length p))
                       (Limit w)).
  - fold k. cbn [fst Buffer].
    destruct (Z.eqb_spec (Z.of_nat (List.length (Buffer w ++ firstn k p))) (Limit w))
      as [E|E].
    + now rewrite <- app_assoc.
    + rewrite length_app, firstn_length_le in E by assumption. lia.
  - assert (Ek : k = List.length p) by lia.
    rewrite Nat2Z.id, Ek, !firstn_all. cbn [fst Buffer].
    destruct (Z.eqb_spec (Z.of_nat (List.length (Buffer w ++ p))) (Limit w))
      as [E|E].
    + now rewrite <- app_assoc.
    + rewrite length_app in E. lia.
Qed.

(** [copy] never meets an error or a short write: it is one [Write] per
    chunk, until the last chunk. *)
Lemma copy_fold (chunks : list (list byte)) (w : t) :
  copy w chunks = fold_left (fun w p => fst (Write w p)) chunks w.
Proof.
  revert w; induction chunks as [|p rest IH]; intros w; [reflexivity|].
  cbn [copy fold_left].
  pose proof (Write_results w p) as R.
  destruct (Write w p) as [w' [n err]]. cbn [fst snd] in *.
  injection R as -> ->. rewrite Z.eqb_refl. apply IH.
Qed.

Lemma fold_saturated (chunks : list (list byte)) (w : t) :
  Limit w <= bytes.len (Buffer w) ->
  fold_left (fun w p => fst (Write w p)) chunks w = w.
Proof.
  intros H. induction chunks as [|p rest IH]; [reflexivity|].
  cbn [fold_left]. now rewrite Write_saturated.
Qed.

(** What a sink holds after a sequence of writes, when it started below
    its limit: everything if that stays below the limit, and otherwise
    the first [Limit] bytes and the marker. *)
Lemma fold_content (chunks : list (list byte)) (w : t) :
  bytes.len (Buffer w) < Limit w ->
  Buffer (fold_left (fun w p => fst (Write w p)) chunks w) =
    let data := Buffer w ++ List.concat chunks in
    if bytes.len data <? Limit w then data
    else firstn (Z.to_nat (Limit w)) data ++ marker.
Proof.
  revert w; induction chunks as [|p rest IH]; intros w H; cbv zeta.
  - cbn [fold_left List.concat]. rewrite app_nil_r.
    destruct (Z.ltb_spec (bytes.len (Buffer w)) (Limit w)); [reflexivity|lia].
  - cbn [fold_left List.concat].
    destruct (Z.lt_ge_cases (bytes.len (Buffer w) + bytes.len p) (Limit w))
      as [Hfit|Hfill].
    + pose proof (Write_fits w p Hfit) as E.
      rewrite IH; rewrite ?Write_Limit, ?E.
      * cbv zeta. now rewrite <- app_assoc.
      * unfold bytes.len in *. rewrite length_app. lia.
    + pose proof (Write_fills w p H Hfill) as E.
      rewrite fold_saturated.
      * rewrite E.
        destruct (Z.ltb_spec (bytes.len (Buffer w ++ p ++ List.concat rest)) (Limit w))
          as [Hlt|_].
        { unfold bytes.len in *. rewrite !length_app in Hlt. lia. }
        unfold bytes.len in *.
        assert (Hb : firstn (Z.to_nat (Limit w)) (Buffer w) = Buffer w)
          by (apply firstn_all2; lia).
        rewrite firstn_app, Hb, firstn_app.
        replace (Z.to_nat (Limit w) - List.length (Buffer w) - List.length p)%nat
          with 0%nat by lia.
        rewrite firstn_O, app_nil_r, <- app_assoc.
        do 3 f_equal. lia.
      * rewrite Write_Limit, E. unfold bytes.len in *.
        rewrite !length_app, firstn_length_le by lia.
        change (List.length marker) with 5%nat. lia.
Qed.

Lemma fold_length (chunks : list (list byte)) (limit : Z) :
  0 < limit ->
  bytes.len (Buffer (fold_left (fun w p => fst (Write w p)) chunks (new limit)))
    <= limit + 5.
Proof.
  intros H. rewrite fold_content by (cbn; lia).
  cbv zeta. cbn [new Buffer Limit app].
  destruct (Z.ltb_spec (bytes.len (List.concat chunks)) limit); [lia|].
  unfold bytes.len in *. rewrite length_app, length_firstn.
  change (List.length marker) with 5%nat. lia.
Qed.

Lemma length_string_of_list_byte (l : list byte) :
  String.length (string_of_list_byte l) = List.length l.
Proof. induction l as [|c l IH]; simpl; [reflexivity|]. now f_equal. Qed.

End LossyWriterFacts.

(** [TestExec]: with a limit of five bytes, the output "hello world" of
    [echo] is captured as "hello[...]". *)
Example TestExec_stdout :
  Stdout (runCmd echo testExecSpec "hello world") = "hello[...]" /\
  ExitStatus (runCmd echo testExecSpec "hello world") = 0 /\
  Target (runCmd echo testExecSpec "hello world") = "hello world".
Proof. repeat split. Qed.

(** C2. For a Spec with positive StdoutBytes and StderrBytes, whatever
    the child process writes, the captured stdout is at most
    StdoutBytes + 5 bytes long and the captured stderr at most
    StderrBytes + 5, where 5 is the length of the marker; and after any
    sequence of calls of [Write] on a fresh sink with a positive limit,
    the buffer is at most Limit + 5 bytes long. *)
Theorem captured_output_bounded
    (spawn : string -> list string -> Process) (s : Spec) (target : string)
    (limit : Z) (chunks : list (list byte)) :
  0 < StdoutBytes s -> 0 < StderrBytes s -> 0 < limit ->
  strings.len (Stdout (runCmd spawn s target)) <= StdoutBytes s + 5 /\
  strings.len (Stderr (runCmd spawn s target)) <= StderrBytes s + 5 /\
  bytes.len lossyWriter.marker = 5 /\
  bytes.len
    (lossyWriter.Buffer
       (fold_left (fun w p => fst (lossyWriter.Write w p)) chunks
                  (lossyWriter.new limit))) <= limit + 5.
Proof.
  intros Hout Herr Hlimit.
  unfold runCmd. destruct (runCmdArgv s target) as [cmd args].
  cbn [Stdout Stderr]. unfold strings.len.
  rewrite !length_string_of_list_byte, !copy_fold.
  pose proof (fold_length (stdoutWrites (spawn cmd args)) _ Hout).
  pose proof (fold_length (stderrWrites (spawn cmd args)) _ Herr).
  pose proof (fold_length chunks _ Hlimit).
  unfold bytes.len in *. repeat split; assumption.
Qed.

(** C2 at [TestExec]: ten bytes are captured under a limit of five. *)
Lemma captured_output_bounded_witness :
  strings.len (Stdout (runCmd echo testExecSpec "hello world")) <= 5 + 5.
Proof.
  apply (captured_output_bounded echo testExecSpec "hello world" 5
           [bytesOf "hello"; bytesOf " world"]); reflexivity.
Defined.

(** C6. [Write] of the bounded sink returns the length of its input and
    no error, in every state and for every input; a sink that is full
    ignores its input; a write that reaches or crosses the limit stores
    exactly the prefix that fills the buffer to Limit bytes, drops the
    rest and appends the marker; and after any sequence of writes on a
    fresh sink the buffer is all the data when that is shorter than
    Limit, and otherwise the first Limit bytes of the data followed by
    one marker of five bytes, which is not counted against Limit. *)
Theorem lossyWriter_Write_caps
    (limit : Z) (buf p : list byte) (chunks : list (list byte)) :
  0 < limit ->
  bytes.len buf < limit ->
  limit <= bytes.len buf + bytes.len p ->
  let w := {| lossyWriter.Limit := limit; lossyWriter.Buffer := buf |} in
  let k := Z.to_nat (limit - bytes.len buf) in
  let data := List.concat chunks in
  (forall w' q, snd (lossyWriter.Write w' q) = (bytes.len q, None)) /\
  (forall w' q, lossyWriter.Limit w' <= bytes.len (lossyWriter.Buffer w') ->
                fst (lossyWriter.Write w' q) = w') /\
  lossyWriter.Buffer (fst (lossyWriter.Write w p)) =
    buf ++ firstn k p ++ lossyWriter.marker /\
  bytes.len (buf ++ firstn k p) = limit /\
  bytes.len lossyWriter.marker = 5 /\
  lossyWriter.Buffer
    (fold_left (fun w p => fst (lossyWriter.Write w p)) chunks
               (lossyWriter.new limit)) =
    if bytes.len data <? limit then data
    else firstn (Z.to_nat limit) data ++ lossyWriter.marker.
Proof.
  intros Hlimit Hbuf Hp. cbv zeta.
  split; [exact Write_results|].
  split; [exact Write_saturated|].
  split; [exact (Write_fills {| lossyWriter.Limit := limit;
                                lossyWriter.Buffer := buf |} p Hbuf Hp)|].
  split.
  { unfold bytes.len in *. rewrite length_app, firstn_length_le; lia. }
  split; [reflexivity|].
  rewrite fold_content by (cbn; lia). reflexivity.
Qed.

(** C6 on the output of [TestExec]: "hello world" under a limit of five
    is stored as "hello" and the marker. *)
Lemma lossyWriter_Write_caps_witness :
  lossyWriter.Buffer
    (fst (lossyWriter.Write (lossyWriter.new 5) (bytesOf "hello world"))) =
  bytesOf "hello[...]".
Proof.
  exact (proj1 (proj2 (proj2
    (lossyWriter_Write_caps 5 [] (bytesOf "hello world")
       [bytesOf "hello"; bytesOf " world"]
       ltac:(reflexivity) ltac:(reflexivity) ltac:(discriminate))))).
Defined.

(* ================================================================== *)
(** * The fan-out executor *)
(* ================================================================== *)

(** The pieces of [Split], joined again with the separator, are the
    string that was split. *)
Lemma Split_join (s sep : string) :
  String.concat sep (strings.Split s sep) = s.
Proof.
  unfold strings.Split. generalize (String.length s) as fuel.
  intros fuel; revert s; induction fuel as [|fuel IH]; intros s;
    cbn [strings.splitLoop]; [reflexivity|].
  destruct (strings.Index s sep <? 0) eqn:E; [reflexivity|].
  apply Z.ltb_ge in E.
  specialize (IH (strings.drop (Z.to_nat (strings.Index s sep + strings.len sep)) s)).
  destruct (strings.splitLoop fuel _ sep) as [|x l] eqn:L.
  - destruct fuel; cbn [strings.splitLoop] in L; [discriminate|].
    destruct (strings.Index _ sep <? 0); discriminate.
  - cbn [String.concat] in *. rewrite IH.
    symmetry. now apply strings_Index_split.
Qed.

Lemma sum_const (A : Type) (l : list A) (p : Z) :
  fold_right Z.add 0 (map (fun _ => p) l) = Z.of_nat (List.length l) * p.
Proof.
  induction l as [|a l IH]; [reflexivity|].
  cbn [map fold_right List.length]. rewrite IH. lia.
Qed.

(** C7. For a positive Parallel and a non-empty list of jump hosts, the
    parallelism that the fan-out coordinator gives each jump host is
    max(1, floor(Parallel / |JumpHosts|)); the sum of it over the jump
    hosts is at most Parallel when Parallel >= |JumpHosts|, and equals
    |JumpHosts| otherwise. *)
Theorem jumpParallel_degraded (s : JumpSpec) :
  0 < Parallel (JumpSpec_Spec s) ->
  JumpHosts s <> [] ->
  let n := Z.of_nat (List.length (JumpHosts s)) in
  let total := fold_right Z.add 0 (map (fun _ => jumpParallel s) (JumpHosts s)) in
  jumpParallel s = Z.max 1 (Parallel (JumpSpec_Spec s) / n) /\
  (n <= Parallel (JumpSpec_Spec s) -> total <= Parallel (JumpSpec_Spec s)) /\
  (Parallel (JumpSpec_Spec s) < n -> total = n).
Proof.
  intros HP Hn. cbv zeta. rewrite sum_const. unfold jumpParallel.
  set (P := Parallel (JumpSpec_Spec s)) in *.
  set (n := Z.of_nat (List.length (JumpHosts s))).
  assert (0 < n).
  { subst n. destruct (JumpHosts s); [congruence|]. cbn [List.length]. lia. }
  rewrite Z.quot_div_nonneg by lia.
  pose proof (Z.div_pos P n ltac:(lia) ltac:(lia)) as Hq.
  pose proof (Z.mul_div_le P n ltac:(lia)) as Hle.
  destruct (Z.eqb_spec (P / n) 0) as [E|E].
  - pose proof (proj1 (Z.div_small_iff P n ltac:(lia)) E).
    repeat split; intros; lia.
  - assert (~ P < n) by (intros Hlt; apply E, Z.div_small; lia).
    repeat split; intros; try lia.
Qed.

(** C7 at the JumpSpec of the test: one worker on the only jump host. *)
Lemma jumpParallel_degraded_witness : jumpParallel testJumpSpec = 1.
Proof.
  exact (proj1 (jumpParallel_degraded testJumpSpec
                  ltac:(reflexivity) ltac:(discriminate))).
Defined.

(** Ten workers over three jump hosts, and two workers over three. *)
Example jumpParallel_ex :
  let js p := {| JumpSpec_Spec := mkSpec "echo" [] 1 p 1 1;
                 JumpHostsKeyFile := ""; JumpCommand := "ssh {.J}";
                 JumpHosts := ["a"; "b"; "c"] |} in
  jumpParallel (js 10) = 3 /\ jumpParallel (js 2) = 1.
Proof. split; reflexivity. Qed.

(** The parallelism of a jump host, for a positive Parallel and at least
    one jump host. *)
Lemma jumpParallel_max (s : JumpSpec) :
  0 < Parallel (JumpSpec_Spec s) ->
  JumpHosts s <> [] ->
  jumpParallel s =
    Z.max 1 (Parallel (JumpSpec_Spec s) / Z.of_nat (List.length (JumpHosts s))).
Proof.
  intros HP Hn. unfold jumpParallel.
  assert (0 < Z.of_nat (List.length (JumpHosts s))).
  { destruct (JumpHosts s); [congruence|]. cbn [List.length]. lia. }
  rewrite Z.quot_div_nonneg by lia.
  pose proof (Z.div_pos (Parallel (JumpSpec_Spec s))
                (Z.of_nat (List.length (JumpHosts s))) ltac:(lia) ltac:(lia)).
  destruct (Z.eqb_spec (Parallel (JumpSpec_Spec s)
                        / Z.of_nat (List.length (JumpHosts s))) 0); lia.
Qed.

(** Up to its first space, a string holds no space. *)
Lemma strings_Index_take (c : ascii) (s : string) :
  0 <= strings.Index s (String c EmptyString) ->
  strings.Index
    (strings.take (Z.to_nat (strings.Index s (String c EmptyString))) s)
    (String c EmptyString) = -1.
Proof.
  induction s as [|x s IH]; rewrite strings_Index_eq; cbn [String.prefix].
  - intros _. reflexivity.
  - destruct (Ascii.ascii_dec c x) as [->|Hx].
    + destruct s; intros _; reflexivity.
    + pose proof (strings_Index_lower s (String c EmptyString)).
      destruct (Z.ltb_spec (strings.Index s (String c EmptyString)) 0);
        [lia|]. intros _.
      replace (Z.to_nat (strings.Index s (String c EmptyString) + 1))
        with (S (Z.to_nat (strings.Index s (String c EmptyString)))) by lia.
      cbn [strings.take]. rewrite strings_Index_eq. cbn [String.prefix].
      destruct (Ascii.ascii_dec c x); [congruence|].
      now rewrite IH by assumption.
Qed.

(** No piece of [Split] at the spaces holds a space. *)
Lemma Split_pieces (s : string) :
  Forall (fun piece => strings.Index piece " " = -1) (strings.Split s " ").
Proof.
  unfold strings.Split.
  assert (G : forall fuel s, (String.length s <= fuel)%nat ->
              Forall (fun piece => strings.Index piece " " = -1)
                     (strings.splitLoop fuel s " ")).
  { clear s. induction fuel as [|fuel IH]; intros s Hs;
      cbn [strings.splitLoop].
    - destruct s; [|cbn in Hs; lia]. repeat constructor.
    - pose proof (strings_Index_lower s " ").
      destruct (Z.ltb_spec (strings.Index s " ") 0).
      + repeat constructor. lia.
      + constructor; [now apply strings_Index_take|].
        apply IH. rewrite length_drop.
        pose proof (strings_Index_upper s " " ltac:(assumption)) as U.
        unfold strings.len in *. cbn [String.length] in *. lia. }
  now apply G.
Qed.

(** C8. For a JumpSpec with a positive Parallel and at least one jump
    host (as [JumpSpec.Validate] requires), the remote shell of a jump
    host is started with the program and the arguments obtained by
    replacing the token of JumpCommand with the address of the jump host
    and splitting the result at the spaces (the pieces hold no space and,
    joined with spaces, give the command back), followed by "--", "ush",
    "exec", --timeout with the Timeout, --parallel with the degraded
    parallelism max(1, floor(Parallel / |JumpHosts|)), --stdout_bytes
    and --stderr_bytes with the two limits, "--", the Command and the
    Args, in this order.  For the JumpSpec of [TestJumpExec] and
    "localhost", the arguments, as [echo] prints them, are the line
    expected by the test; for ten workers over three jump hosts the
    nested engine gets --parallel=3. *)
Theorem jumpArgv_synthesis (s : JumpSpec) (host : string) :
  0 < Parallel (JumpSpec_Spec s) ->
  JumpHosts s <> [] ->
  let p := Z.max 1 (Parallel (JumpSpec_Spec s)
                    / Z.of_nat (List.length (JumpHosts s))) in
  (exists (prog : string) (toks : list string),
      strings.Split (strings.Replace (JumpCommand s) "{.J}" host) " "
        = prog :: toks /\
      String.concat " " (prog :: toks)
        = strings.Replace (JumpCommand s) "{.J}" host /\
      Forall (fun piece => strings.Index piece " " = -1) (prog :: toks) /\
      jumpArgv s host =
        Some (prog,
              toks ++
              [ "--"; "ush"; "exec";
                ("--timeout=" ++ time.DurationString (Timeout (JumpSpec_Spec s)))%string;
                ("--parallel=" ++ strconv.Itoa p)%string;
                ("--stdout_bytes=" ++ strconv.Itoa (StdoutBytes (JumpSpec_Spec s)))%string;
                ("--stderr_bytes=" ++ strconv.Itoa (StderrBytes (JumpSpec_Spec s)))%string;
                "--";
                Command (JumpSpec_Spec s) ] ++
              Args (JumpSpec_Spec s))) /\
  jumpArgv testJumpSpec "localhost" =
    Some ("echo",
          [ "localhost"; "--"; "ush"; "exec"; "--timeout=1s"; "--parallel=1";
            "--stdout_bytes=1024"; "--stderr_bytes=1024"; "--"; "echo"; "{.T}" ]) /\
  option_map (fun a => String.concat " " (snd a)) (jumpArgv testJumpSpec "localhost") =
    Some "localhost -- ush exec --timeout=1s --parallel=1 --stdout_bytes=1024 --stderr_bytes=1024 -- echo {.T}" /\
  jumpArgv fanoutJumpSpec "jump2" =
    Some ("ssh",
          [ "-A"; "-oBatchMode=yes"; "-oConnectTimeout=10"; "jump2";
            "--"; "ush"; "exec"; "--timeout=1m0s"; "--parallel=3";
            "--stdout_bytes=4096"; "--stderr_bytes=4096"; "--";
            "ssh"; "user@{.T}"; "--"; "hostid" ]).
Proof.
  intros HP Hn. cbv zeta.
  split; [|split; [|split]; reflexivity].
  unfold jumpArgv. rewrite (jumpParallel_max s HP Hn).
  pose proof (Split_join (strings.Replace (JumpCommand s) "{.J}" host) " ") as J.
  pose proof (Split_pieces (strings.Replace (JumpCommand s) "{.J}" host)) as F.
  destruct (strings.Split (strings.Replace (JumpCommand s) "{.J}" host) " ")
    as [|prog toks] eqn:E.
  - now elim (Split_nonempty _ _ E).
  - exists prog, toks. unfold ushargs. rewrite <- app_assoc.
    repeat split; assumption || reflexivity.
Qed.

(** C8 at two workers over three jump hosts: each jump host runs the
    nested engine with one worker. *)
Lemma jumpArgv_synthesis_witness :
  exists (prog : string) (toks : list string),
    jumpArgv {| JumpSpec_Spec := mkSpec "hostid" [] (5 * time.Second) 2 64 64;
                JumpHostsKeyFile := "";
                JumpCommand := "ssh {.J}";
                JumpHosts := ["a"; "b"; "c"] |} "b" =
    Some (prog,
          toks ++
          [ "--"; "ush"; "exec"; "--timeout=5s"; "--parallel=1";
            "--stdout_bytes=64"; "--stderr_bytes=64"; "--"; "hostid" ] ++ []).
Proof.
  destruct (jumpArgv_synthesis
              {| JumpSpec_Spec := mkSpec "hostid" [] (5 * time.Second) 2 64 64;
                 JumpHostsKeyFile := "";
                 JumpCommand := "ssh {.J}";
                 JumpHosts := ["a"; "b"; "c"] |} "b"
              ltac:(reflexivity) ltac:(discriminate))
    as [(prog & toks & _ & _ & _ & H) _].
  exists prog, toks. exact H.
Defined.

(** ** The line-synchronised sink *)

Lemma bytes_Index_eq (s sep : list byte) :
  bytes.Index s sep =
    if bytes.HasPrefix s sep then 0
    else match s with
         | [] => -1
         | _ :: s' =>
             if bytes.Index s' sep <? 0 then -1 else bytes.Index s' sep + 1
         end.
Proof. destruct s; reflexivity. Qed.

Lemma HasPrefix_newline (c : byte) (s : list byte) :
  bytes.HasPrefix (c :: s) newline = Byte.eqb x0a c.
Proof.
  change newline with [x0a]. cbn [bytes.HasPrefix].
  destruct s; apply andb_true_r.
Qed.

Lemma eqb_newline_false (c : byte) : c <> x0a -> Byte.eqb x0a c = false.
Proof.
  intros H. destruct (Byte.eqb x0a c) eqn:E; [|reflexivity].
  apply Byte.byte_dec_bl in E. congruence.
Qed.

(** Without a line feed in [p], [Index] finds none. *)
Lemma bytes_Index_newline_absent (p : list byte) :
  ~ In x0a p -> bytes.Index p newline = -1.
Proof.
  induction p as [|c p IH]; intros H; [reflexivity|].
  rewrite bytes_Index_eq, HasPrefix_newline, eqb_newline_false.
  - rewrite IH; [reflexivity|]. intros Hin. apply H. now right.
  - intros ->. apply H. now left.
Qed.

(** [Index] finds the first line feed. *)
Lemma bytes_Index_newline_first (pre post : list byte) :
  ~ In x0a pre -> bytes.Index (pre ++ x0a :: post) newline = bytes.len pre.
Proof.
  unfold bytes.len.
  induction pre as [|c pre IH]; intros H; cbn [app].
  - rewrite bytes_Index_eq, HasPrefix_newline. reflexivity.
  - rewrite bytes_Index_eq, HasPrefix_newline, eqb_newline_false.
    + rewrite IH by (intros Hin; apply H; now right).
      destruct (Z.ltb_spec (Z.of_nat (List.length pre)) 0); cbn [List.length]; lia.
    + intros ->. apply H. now left.
Qed.

(** C5 does not hold of the code, on two inputs.  A write that begins
    with a line feed is dropped whole by an early return: on a sink that
    holds "x", writing a line feed and "abc" returns 4, leaves "x" in
    the buffer and nothing on the underlying writer, and after a flush
    the underlying writer holds "x" alone; the claim drains "x" and
    retains "abc".  And a write with a line feed further on retains the
    line feed with what follows it: on a sink that holds "hello", after
    writing "world" and a line feed the buffer holds the line feed,
    where the claim retains the bytes after it, that is, nothing. *)
Theorem synchronizedWriter_Write_misses_lines :
  (let s := {| synchronizedWriter.b := bytesOf "x" |} in
   let p := bytesOf (LF ++ "abc") in
   synchronizedWriter.Write [] s p = ([], s, (4, None)) /\
   synchronizedWriter.b (snd (fst (synchronizedWriter.Write [] s p)))
     <> bytesOf "abc" /\
   fst (fst (synchronizedWriter.Write [] s p)) <> bytesOf "x" /\
   under (runCalls [ CallWrite 0 (bytesOf "x");
                     CallWrite 0 (bytesOf (LF ++ "abc"));
                     CallFlush 0 ]) = bytesOf "x") /\
  (let s := {| synchronizedWriter.b := bytesOf "hello" |} in
   let p := bytesOf ("world" ++ LF) in
   skipn (Z.to_nat (bytes.Index p newline + 1)) p = [] /\
   synchronizedWriter.Write [] s p
     = (bytesOf "helloworld", {| synchronizedWriter.b := newline |}, (6, None)) /\
   synchronizedWriter.b (snd (fst (synchronizedWriter.Write [] s p)))
     <> skipn (Z.to_nat (bytes.Index p newline + 1)) p).
Proof. cbv zeta. repeat split; discriminate. Qed.

(** What [Write] does where the code and the description of the sink
    agree, and where the code goes its own way.  A write without a line
    feed is appended to the buffer and leaves the underlying writer as
    it is.  A write whose first line feed is not its first byte appends
    the bytes before that line feed to the buffer and drains the buffer
    to the underlying writer; the code then keeps the line feed itself
    in the buffer, with what follows it.  With the writes of
    [TestSynchronizedWriter] the underlying writer holds, after the
    flush, what the test expects. *)
Lemma synchronizedWriter_Write_lines
    (out buf pre post : list byte) (c : byte) :
  c <> x0a ->
  ~ In x0a pre ->
  let s := {| synchronizedWriter.b := buf |} in
  let line := c :: pre in
  synchronizedWriter.Write out s pre =
    (out, {| synchronizedWriter.b := buf ++ pre |}, (bytes.len pre, None)) /\
  synchronizedWriter.Write out s (line ++ x0a :: post) =
    (out ++ buf ++ line,
     {| synchronizedWriter.b := x0a :: post |},
     (bytes.len (line ++ x0a :: post), None)) /\
  under (runCalls [ CallWrite 0 (bytesOf "hello");
                    CallWrite 0 (bytesOf ("world" ++ LF));
                    CallWrite 0 (bytesOf "foobar");
                    CallFlush 0 ])
    = bytesOf ("helloworld" ++ LF ++ "foobar").
Proof.
  intros Hc Hpre. cbv zeta.
  split; [|split; [|reflexivity]].
  - unfold synchronizedWriter.Write.
    rewrite bytes_Index_newline_absent by assumption. reflexivity.
  - unfold synchronizedWriter.Write.
    rewrite (bytes_Index_newline_first (c :: pre) post)
      by (intros [->|Hin]; [now apply Hc|now apply Hpre]).
    unfold bytes.len. cbn [List.length synchronizedWriter.b].
    destruct (Z.eqb_spec (Z.of_nat (S (List.length pre))) (-1)); [lia|].
    destruct (Z.eqb_spec (Z.of_nat (S (List.length pre))) 0); [lia|].
    rewrite Nat2Z.id.
    change (S (List.length pre)) with (List.length (c :: pre)).
    rewrite firstn_app, firstn_all, Nat.sub_diag, firstn_O, app_nil_r.
    rewrite skipn_app, skipn_all, Nat.sub_diag. reflexivity.
Qed.

(** C4 does not hold of the code.  Two sinks share the underlying
    writer; the first writes the line "one", the second the line "two",
    each with its line feed, and both are flushed.  The underlying
    writer then holds "onetwo" and two line feeds: the bytes of the
    second sink stand between the first byte of the line of the first
    sink and the line feed that ends it. *)
Theorem synchronizedWriter_lines_interleave :
  let st := runCalls [ CallWrite 0 (bytesOf ("one" ++ LF));
                       CallWrite 1 (bytesOf ("two" ++ LF));
                       CallFlush 0;
                       CallFlush 1 ] in
  under st = bytesOf ("onetwo" ++ LF ++ LF) /\
  origin st = [0; 0; 0; 1; 1; 1; 0; 1]%nat /\
  cutsLine (combine (origin st) (under st)) = true.
Proof. cbv zeta. repeat split. Qed.

(** ** The parser of the agent's first line *)


Lemma bytes_Index_lower (s sep : list byte) : -1 <= bytes.Index s sep.
Proof.
  induction s as [|c s IH]; rewrite bytes_Index_eq;
    destruct (bytes.HasPrefix _ sep); try lia.
  destruct (Z.ltb_spec (bytes.Index s sep) 0); lia.
Qed.


(** C10. On the input that is the bare key SSH_AUTH_SOCK and a line
    feed, the first line has no equals sign and splits into one part;
    the guard, a conjunction, does not fire, since its second operand is
    false; the second part, which the parser reads next, does not exist,
    and the call panics instead of returning an error. *)
Theorem handshake_bare_key_panics (Stat : string -> bool) :
  let p := bytesOf ("SSH_AUTH_SOCK" ++ LF) in
  let ps := sshAgentStdout.parts (bytesOf "SSH_AUTH_SOCK") in
  sshAgentStdout.line1 p = Some (bytesOf "SSH_AUTH_SOCK") /\
  bytes.Index (bytesOf "SSH_AUTH_SOCK") (bytesOf "=") = -1 /\
  ps = [bytesOf "SSH_AUTH_SOCK"] /\
  sshAgentStdout.rejects ps = Some false /\
  nth_error ps 1 = None /\
  sshAgentStdout.Write Stat sshAgentStdout.new p =
    ({| sshAgentStdout.done := false; sshAgentStdout.b := p |},
     None, sshAgentStdout.Panic).
Proof. cbv zeta. repeat split; vm_compute; reflexivity. Qed.

(** C3 does not hold of the code.  The first line "FOO=/tmp; export FOO"
    is not a pair for the key SSH_AUTH_SOCK, yet the guard lets it pass:
    the parser takes "/tmp" as the path of the socket, and when that
    path exists, sends it to the caller as the socket of the agent; the
    error for unexpected output is not returned. *)
Theorem handshake_accepts_other_key (Stat : string -> bool) :
  let p := bytesOf ("FOO=/tmp; export FOO" ++ LF) in
  let s1 := {| sshAgentStdout.done := false; sshAgentStdout.b := p |} in
  sshAgentStdout.rejects (sshAgentStdout.parts (bytesOf "FOO=/tmp; export FOO"))
    = Some false /\
  sshAgentStdout.Write Stat sshAgentStdout.new p =
    if Stat "/tmp"
    then ({| sshAgentStdout.done := true; sshAgentStdout.b := p |},
          Some "/tmp", sshAgentStdout.Return (bytes.len p) None)
    else (s1, None, sshAgentStdout.Return 0 (Some (ErrCannotStat "/tmp"))).
Proof.
  cbv zeta. split; [reflexivity|].
  vm_compute. destruct (Stat _); reflexivity.
Qed.

(** The handshake that the agent really prints is parsed as intended. *)
Example handshake_agent_line :
  let p := bytesOf ("SSH_AUTH_SOCK=/tmp/ssh-XX/agent.1; export SSH_AUTH_SOCK;" ++ LF) in
  snd (fst (sshAgentStdout.Write (fun _ => true) sshAgentStdout.new p))
    = Some "/tmp/ssh-XX/agent.1" /\
  snd (sshAgentStdout.Write (fun _ => true) sshAgentStdout.new (bytesOf ("no agent here" ++ LF)))
    = sshAgentStdout.Return 0 (Some (ErrUnexpectedOutput "no agent here")).
Proof. cbv zeta. split; vm_compute; reflexivity. Qed.

(* ================================================================== *)
(** * Further properties of the local executor *)
(* ================================================================== *)

Lemma fold_Limit (chunks : list (list byte)) (w : lossyWriter.t) :
  lossyWriter.Limit (fold_left (fun w p => fst (lossyWriter.Write w p)) chunks w)
  = lossyWriter.Limit w.
Proof.
  revert w; induction chunks as [|p rest IH]; intros w; [reflexivity|].
  cbn [fold_left]. now rewrite IH, Write_Limit.
Qed.

Lemma lossyWriter_eta (w1 w2 : lossyWriter.t) :
  lossyWriter.Limit w1 = lossyWriter.Limit w2 ->
  lossyWriter.Buffer w1 = lossyWriter.Buffer w2 -> w1 = w2.
Proof. destruct w1, w2; cbn; congruence. Qed.

(** X3. What a fresh sink captures depends on the bytes written only,
    not on how the writes cut them into chunks. *)
Theorem lossyWriter_chunking_irrelevant
    (limit : Z) (chunks1 chunks2 : list (list byte)) :
  List.concat chunks1 = List.concat chunks2 ->
  lossyWriter.copy (lossyWriter.new limit) chunks1 =
  lossyWriter.copy (lossyWriter.new limit) chunks2.
Proof.
  intros E. rewrite !copy_fold.
  destruct (Z.lt_ge_cases 0 limit) as [Hpos|Hneg].
  - apply lossyWriter_eta.
    + now rewrite !fold_Limit.
    + rewrite !fold_content by (cbn; lia). cbv zeta. now rewrite E.
  - rewrite !fold_saturated by (cbn; lia). reflexivity.
Qed.

(** X3 on the output of [echo]: in one chunk or in two. *)
Lemma lossyWriter_chunking_irrelevant_witness :
  lossyWriter.copy (lossyWriter.new 5) [bytesOf "hello world"] =
  lossyWriter.copy (lossyWriter.new 5) [bytesOf "hel"; bytesOf "lo world"].
Proof.
  exact (lossyWriter_chunking_irrelevant 5 [bytesOf "hello world"]
           [bytesOf "hel"; bytesOf "lo world"] ltac:(reflexivity)).
Defined.

(** X4. A sink only ever appends: in every state and for every sequence
    of writes, what the buffer held before is still at its start. *)
Theorem lossyWriter_appends_only (w : lossyWriter.t) (chunks : list (list byte)) :
  exists suffix : list byte,
    lossyWriter.Buffer (lossyWriter.copy w chunks) = lossyWriter.Buffer w ++ suffix.
Proof.
  rewrite copy_fold. revert w.
  induction chunks as [|p rest IH]; intros w; cbn [fold_left].
  - exists []. now rewrite app_nil_r.
  - destruct (IH (fst (lossyWriter.Write w p))) as [suffix E]. rewrite E.
    assert (H : exists d, lossyWriter.Buffer (fst (lossyWriter.Write w p))
                          = lossyWriter.Buffer w ++ d).
    { unfold lossyWriter.Write.
      destruct (bytes.len (lossyWriter.Buffer w) >=? lossyWriter.Limit w).
      - exists []. now rewrite app_nil_r.
      - cbn [fst lossyWriter.Buffer].
        match goal with |- context [if ?c then _ else ?x] =>
          destruct c end.
        + eexists. rewrite <- app_assoc. reflexivity.
        + eexists. reflexivity. }
    destruct H as [d ->]. exists (d ++ suffix). now rewrite app_assoc.
Qed.

(** X5. The stdout that [runCmd] reports is the output of the child when
    that is shorter than StdoutBytes, and otherwise its first
    StdoutBytes bytes followed by the marker; an output of exactly
    StdoutBytes bytes is reported whole and still gets the marker.
    The same holds of stderr with StderrBytes. *)
Theorem runCmd_captures_prefix
    (spawn : string -> list string -> Process) (s : Spec) (target : string) :
  0 < StdoutBytes s ->
  0 < StderrBytes s ->
  let oscmd := spawn (fst (runCmdArgv s target)) (snd (runCmdArgv s target)) in
  let capture (limit : Z) (data : list byte) :=
    string_of_list_byte
      (if bytes.len data <? limit then data
       else firstn (Z.to_nat limit) data ++ lossyWriter.marker) in
  Stdout (runCmd spawn s target) =
    capture (StdoutBytes s) (List.concat (stdoutWrites oscmd)) /\
  Stderr (runCmd spawn s target) =
    capture (StderrBytes s) (List.concat (stderrWrites oscmd)) /\
  (bytes.len (List.concat (stdoutWrites oscmd)) = StdoutBytes s ->
   Stdout (runCmd spawn s target) =
     string_of_list_byte (List.concat (stdoutWrites oscmd) ++ lossyWriter.marker)).
Proof.
  intros Hout Herr. cbv zeta. unfold runCmd.
  destruct (runCmdArgv s target) as [cmd args]. cbn [fst snd Stdout Stderr].
  rewrite !copy_fold, !fold_content by (cbn; lia).
  cbv zeta. cbn [lossyWriter.new lossyWriter.Buffer lossyWriter.Limit app].
  repeat split. intros E. rewrite E, Z.ltb_irrefl.
  rewrite firstn_all2; [reflexivity|]. unfold bytes.len in E. lia.
Qed.

(** X5 at [TestExec]. *)
Lemma runCmd_captures_prefix_witness :
  Stdout (runCmd echo testExecSpec "hello") =
  string_of_list_byte (bytesOf "hello" ++ lossyWriter.marker).
Proof.
  exact (proj1 (runCmd_captures_prefix echo testExecSpec "hello"
                  ltac:(reflexivity) ltac:(reflexivity))).
Defined.

Lemma prefix_self_app (a r : string) : String.prefix a (a ++ r) = true.
Proof.
  induction a as [|c a IH]; cbn.
  - destruct r; reflexivity.
  - destruct (Ascii.ascii_dec c c); [exact IH|congruence].
Qed.

Lemma take_app_length (a r : string) :
  strings.take (String.length a) (a ++ r) = a.
Proof.
  induction a as [|c a IH]; cbn; [now destruct r|]. now rewrite IH.
Qed.

Lemma drop_app_length (a r : string) :
  strings.drop (String.length a) (a ++ r) = r.
Proof. induction a as [|c a IH]; cbn; [now destruct r|assumption]. Qed.

Lemma append_assoc (a b c : string) :
  ((a ++ b) ++ c = a ++ b ++ c)%string.
Proof. induction a as [|x a IH]; cbn; [reflexivity|now rewrite IH]. Qed.

Lemma append_length (a b : string) :
  String.length (a ++ b) = (String.length a + String.length b)%nat.
Proof. induction a as [|x a IH]; cbn; [reflexivity|now rewrite IH]. Qed.

(** The first instance of a word that begins with [c], behind a string
    without [c], is the first instance in what follows that string. *)
Lemma strings_Index_behind (c : ascii) (word a r : string) :
  strings.Index a (String c EmptyString) = -1 ->
  strings.Index (a ++ r) (String c word) =
    if strings.Index r (String c word) <? 0 then -1
    else strings.len a + strings.Index r (String c word).
Proof.
  unfold strings.len. induction a as [|x a IH]; intros H.
  - cbn [String.append String.length Z.of_nat].
    pose proof (strings_Index_lower r (String c word)).
    destruct (Z.ltb_spec (strings.Index r (String c word)) 0); lia.
  - rewrite strings_Index_eq in H. cbn [String.prefix] in H.
    destruct (Ascii.ascii_dec c x) as [->|Hx].
    + destruct a; discriminate.
    + pose proof (strings_Index_lower a (String c EmptyString)).
      destruct (Z.ltb_spec (strings.Index a (String c EmptyString)) 0);
        [|lia].
      assert (Ha : strings.Index a (String c EmptyString) = -1) by lia.
      specialize (IH Ha).
      cbn [String.append]. rewrite strings_Index_eq. cbn [String.prefix].
      destruct (Ascii.ascii_dec c x); [congruence|].
      rewrite IH.
      destruct (Z.ltb_spec (strings.Index r (String c word)) 0).
      * reflexivity.
      * cbn [String.length].
        destruct (Z.ltb_spec (Z.of_nat (String.length a)
                              + strings.Index r (String c word)) 0); lia.
Qed.

(** A template with one instance of the token: a text without the first
    character of the token, the token, and a text without the token.
    [Replace] puts [new] in the place of the token and reads no
    further. *)
Lemma Replace_in_place (c : ascii) (word a r new : string) :
  strings.Index a (String c EmptyString) = -1 ->
  strings.Index r (String c word) = -1 ->
  strings.Replace (a ++ String c word ++ r) (String c word) new
    = (a ++ new ++ r)%string.
Proof.
  intros Ha Hr. set (tok := String c word) in *.
  assert (I0 : strings.Index (tok ++ r) tok = 0).
  { rewrite strings_Index_eq, prefix_self_app. reflexivity. }
  assert (I : strings.Index (a ++ tok ++ r) tok = strings.len a).
  { unfold tok. rewrite (strings_Index_behind c word a _ Ha).
    fold tok. rewrite I0. cbn. lia. }
  destruct (String.eqb_spec tok new) as [<-|Hneq].
  - unfold strings.Replace. now rewrite String.eqb_refl.
  - rewrite Replace_step by (discriminate || assumption || rewrite I;
                             unfold strings.len; lia).
    rewrite I. unfold strings.len. rewrite Nat2Z.id.
    replace (Z.to_nat (Z.of_nat (String.length a)
                       + Z.of_nat (String.length tok)))
      with (String.length (a ++ tok)) by (rewrite append_length; lia).
    rewrite take_app_length.
    rewrite <- (append_assoc a tok r), drop_app_length.
    rewrite Replace_absent by lia. reflexivity.
Qed.

(** X6. A command name or an argument made of a text without an opening
    brace, the token, and a text without the token becomes the first
    text, the target and the second text: the target is put in as it
    is, whatever it contains, and the argument stays one argument. *)
Theorem runCmd_templates_in_place (s : Spec) (target a r : string) (i : nat) :
  strings.Index a "{" = -1 ->
  strings.Index r "{.T}" = -1 ->
  (Command s = (a ++ "{.T}" ++ r)%string ->
   fst (runCmdArgv s target) = (a ++ target ++ r)%string) /\
  (nth_error (Args s) i = Some (a ++ "{.T}" ++ r)%string ->
   nth_error (snd (runCmdArgv s target)) i = Some (a ++ target ++ r)%string).
Proof.
  intros Ha Hr.
  pose proof (Replace_in_place "{" ".T}" a r target Ha Hr) as R.
  unfold runCmdArgv; cbn [fst snd]. split.
  - intros ->. exact R.
  - intros H. now rewrite nth_error_map, H, <- R.
Qed.

(** X6 for [ssh user@{.T}] and a target that holds a space and the token
    itself. *)
Lemma runCmd_templates_in_place_witness :
  nth_error (snd (runCmdArgv (mkSpec "ssh" ["user@{.T}"] 1 1 1 1) "a {.T}")) 0
  = Some "user@a {.T}".
Proof.
  exact (proj2 (runCmd_templates_in_place (mkSpec "ssh" ["user@{.T}"] 1 1 1 1)
                  "a {.T}" "user@" "" 0 ltac:(reflexivity) ltac:(reflexivity))
           ltac:(reflexivity)).
Defined.

(* ================================================================== *)
(** * Further properties of the fan-out executor *)
(* ================================================================== *)

(** X1. [JumpSpec.Validate] returns the error of the embedded Spec when
    that is not valid; for a valid Spec it returns ErrNoJumpCommand
    exactly when JumpCommand is empty, ErrNoJumpHosts exactly when
    JumpCommand is set and there is no jump host, and nil exactly when
    JumpCommand is set and there is a jump host. *)
Theorem JumpValidate_cascade (s : JumpSpec) :
  (forall e, Validate (JumpSpec_Spec s) = Some e -> JumpValidate s = Some e) /\
  (JumpValidate s = Some ErrNoJumpCommand <->
     Validate (JumpSpec_Spec s) = None /\ JumpCommand s = "") /\
  (JumpValidate s = Some ErrNoJumpHosts <->
     Validate (JumpSpec_Spec s) = None /\ JumpCommand s <> "" /\
     JumpHosts s = []) /\
  (JumpValidate s = None <->
     Validate (JumpSpec_Spec s) = None /\ JumpCommand s <> "" /\
     JumpHosts s <> []).
Proof.
  assert (V : forall e, Validate (JumpSpec_Spec s) = Some e ->
                        e <> ErrNoJumpCommand /\ e <> ErrNoJumpHosts).
  { intros e. unfold Validate.
    repeat match goal with |- context [if ?c then _ else _] => destruct c end;
      intros [= <-]; split; discriminate. }
  unfold JumpValidate.
  destruct (Validate (JumpSpec_Spec s)) as [e|] eqn:E.
  - destruct (V e eq_refl). repeat split; intros; try congruence;
      repeat match goal with H : _ /\ _ |- _ => destruct H end; congruence.
  - destruct (String.eqb_spec (JumpCommand s) "") as [C|C];
      destruct (JumpHosts s) as [|h hosts]; cbn [List.length Z.of_nat Z.eqb];
      repeat split; intros; try discriminate; try congruence;
      repeat match goal with H : _ /\ _ |- _ => destruct H end;
      try congruence.
Qed.

(** X2. After [JumpSpec.Validate] has accepted a JumpSpec, the division
    by the number of jump hosts is defined, and the parallelism handed
    to each jump host is at least 1 and at most Parallel. *)
Theorem jumpParallel_valid (s : JumpSpec) :
  JumpValidate s = None ->
  0 < Z.of_nat (List.length (JumpHosts s)) /\
  1 <= jumpParallel s <= Parallel (JumpSpec_Spec s).
Proof.
  intros H. unfold JumpValidate in H.
  destruct (Validate (JumpSpec_Spec s)) eqn:V; [discriminate|].
  destruct (String.eqb (JumpCommand s) ""); [discriminate|].
  assert (Hh : JumpHosts s <> []).
  { intros E. rewrite E in H. discriminate. }
  clear H.
  assert (HP : 0 < Parallel (JumpSpec_Spec s)).
  { revert V. unfold Validate.
    destruct (String.eqb (Command (JumpSpec_Spec s)) ""); [discriminate|].
    destruct (Timeout (JumpSpec_Spec s) <=? 0); [discriminate|].
    destruct (Z.leb_spec (Parallel (JumpSpec_Spec s)) 0); [discriminate|].
    intros _. assumption. }
  assert (Hn : 0 < Z.of_nat (List.length (JumpHosts s))).
  { destruct (JumpHosts s); [congruence|cbn [List.length]; lia]. }
  split; [assumption|]. unfold jumpParallel.
  rewrite Z.quot_div_nonneg by lia.
  pose proof (Z.div_pos (Parallel (JumpSpec_Spec s)) _ ltac:(lia) Hn).
  pose proof (Z.div_le_upper_bound (Parallel (JumpSpec_Spec s))
                (Z.of_nat (List.length (JumpHosts s)))
                (Parallel (JumpSpec_Spec s)) Hn ltac:(nia)).
  destruct (Z.eqb_spec (Parallel (JumpSpec_Spec s)
                        / Z.of_nat (List.length (JumpHosts s))) 0); lia.
Qed.

(** X2 at the JumpSpec of the test. *)
Lemma jumpParallel_valid_witness :
  1 <= jumpParallel testJumpSpec <= Parallel (JumpSpec_Spec testJumpSpec).
Proof. exact (proj2 (jumpParallel_valid testJumpSpec ltac:(reflexivity))). Defined.

(** What one [Write] does to the underlying writer and to the buffer of
    the sink together: the bytes of [p] are added behind what the buffer
    held, unless [p] begins with a line feed; part of it may move from
    the buffer to the underlying writer. *)
Lemma Write_delta (out : list byte) (s : synchronizedWriter.t) (p : list byte) :
  exists delta : list byte,
    fst (fst (synchronizedWriter.Write out s p)) = out ++ delta /\
    delta ++ synchronizedWriter.b (snd (fst (synchronizedWriter.Write out s p)))
      = synchronizedWriter.b s ++ (if leadingNewline p then [] else p) /\
    snd (synchronizedWriter.Write out s p) = (bytes.len p, None).
Proof.
  unfold synchronizedWriter.Write.
  destruct p as [|c p].
  - exists []. cbn. now rewrite !app_nil_r.
  - rewrite bytes_Index_eq, HasPrefix_newline. cbn [leadingNewline].
    destruct (Byte.eqb x0a c).
    + exists []. cbn. now rewrite !app_nil_r.
    + pose proof (bytes_Index_lower p newline) as L.
      destruct (Z.ltb_spec (bytes.Index p newline) 0).
      * exists []. cbn. now rewrite !app_nil_r.
      * destruct (Z.eqb_spec (bytes.Index p newline + 1) (-1)); [lia|].
        destruct (Z.eqb_spec (bytes.Index p newline + 1) 0); [lia|].
        eexists. cbn [fst snd synchronizedWriter.b].
        split; [reflexivity|]. split; [|reflexivity].
        now rewrite <- app_assoc, firstn_skipn.
Qed.

(** X7. A sink loses nothing but the writes that begin with a line feed:
    after any sequence of writes and a flush, the underlying writer has
    received what the sink held before and, in order, every write that
    does not begin with a line feed; a write that begins with a line
    feed is dropped whole. *)
Theorem synchronizedWriter_conserves
    (out : list byte) (s : synchronizedWriter.t) (chunks : list (list byte)) :
  fst (fst (synchronizedWriter.Flush (fst (sinkCopy out s chunks))
                                     (snd (sinkCopy out s chunks)))) =
  out ++ synchronizedWriter.b s ++
  List.concat (filter (fun p => negb (leadingNewline p)) chunks).
Proof.
  unfold synchronizedWriter.Flush. cbn [fst].
  revert out s. induction chunks as [|p rest IH]; intros out s.
  - cbn. now rewrite app_nil_r.
  - cbn [sinkCopy filter].
    destruct (Write_delta out s p) as (delta & E1 & E2 & E3).
    destruct (synchronizedWriter.Write out s p) as [[out' s'] [n err]].
    cbn [fst snd] in *. injection E3 as -> ->. rewrite Z.eqb_refl, IH.
    subst out'. rewrite <- app_assoc, (app_assoc delta), E2.
    destruct (leadingNewline p); cbn [negb List.concat];
      now rewrite ?app_nil_r, <- ?app_assoc.
Qed.

Lemma combine_app_same (A B : Type) (l1 l2 : list A) (m1 m2 : list B) :
  List.length l1 = List.length m1 ->
  combine (l1 ++ l2) (m1 ++ m2) = combine l1 m1 ++ combine l2 m2.
Proof.
  revert m1; induction l1 as [|a l1 IH]; intros [|b m1] H;
    try discriminate; cbn; [reflexivity|].
  f_equal. apply IH. now injection H.
Qed.

Lemma drained_repeat (i j : nat) (d : list byte) :
  map snd (filter (fun x => Nat.eqb (fst x) i)
                  (combine (repeat j (List.length d)) d))
  = if Nat.eqb j i then d else [].
Proof.
  induction d as [|c d IH]; cbn [List.length repeat combine filter fst];
    [now destruct (Nat.eqb j i)|].
  destruct (Nat.eqb j i); cbn [map snd]; now rewrite IH.
Qed.

(** One call of a schedule: the ghost state stays aligned with the
    underlying writer, and for every sink the bytes it has drained
    followed by the bytes it holds grow by what the call hands to it. *)
Lemma step_keeps_order (st : Shared) (c : Call) (i : nat) :
  List.length (origin st) = List.length (under st) ->
  List.length (origin (step st c)) = List.length (under (step st c)) /\
  drainedBy i (step st c) ++ synchronizedWriter.b (sinks (step st c) i) =
    (drainedBy i st ++ synchronizedWriter.b (sinks st i)) ++ writtenTo i [c].
Proof.
  intros Hlen.
  assert (G : forall (j : nat) (delta : list byte) (s' : synchronizedWriter.t)
                     (w : list byte),
             (delta ++ synchronizedWriter.b s'
              = synchronizedWriter.b (sinks st j) ++ w) ->
             let st' := {| under := under st ++ delta;
                           origin := origin st
                                     ++ grown j (under st) (under st ++ delta);
                           sinks := setSink (sinks st) j s' |} in
             List.length (origin st') = List.length (under st') /\
             drainedBy i st' ++ synchronizedWriter.b (sinks st' i) =
               (drainedBy i st ++ synchronizedWriter.b (sinks st i))
               ++ (if Nat.eqb j i then w else [])).
  { intros j delta s' w E. cbv zeta. unfold grown, drainedBy, setSink.
    cbn [under origin sinks].
    replace (List.length (under st ++ delta) - List.length (under st))%nat
      with (List.length delta) by (rewrite length_app; lia).
    split; [rewrite !length_app, repeat_length; lia|].
    rewrite combine_app_same, filter_app, map_app, drained_repeat
      by assumption.
    destruct (Nat.eqb_spec j i) as [->|].
    - now rewrite <- !app_assoc, E.
    - now rewrite !app_nil_r. }
  destruct c as [j p|j]; cbn [step].
  - destruct (Write_delta (under st) (sinks st j) p) as (delta & E1 & E2 & _).
    destruct (synchronizedWriter.Write (under st) (sinks st j) p)
      as [[out' s'] r]. cbn [fst snd] in *. subst out'.
    destruct (G j delta s' _ E2) as [G1 G2]. split; [exact G1|].
    rewrite G2. f_equal. unfold writtenTo. cbn [map List.concat].
    rewrite app_nil_r.
    destruct (Nat.eqb j i), (leadingNewline p); reflexivity.
  - unfold synchronizedWriter.Flush.
    destruct (G j (synchronizedWriter.b (sinks st j))
                {| synchronizedWriter.b := [] |} []
                ltac:(reflexivity)) as [G1 G2].
    split; [exact G1|]. rewrite G2. unfold writtenTo. cbn.
    now destruct (Nat.eqb j i).
Qed.

Lemma writtenTo_app (i : nat) (cs1 cs2 : list Call) :
  writtenTo i (cs1 ++ cs2) = writtenTo i cs1 ++ writtenTo i cs2.
Proof. unfold writtenTo. now rewrite map_app, concat_app. Qed.

(** X8. However the calls on the sinks of one underlying writer follow
    each other, every sink keeps its own bytes in order: the bytes that
    a sink has put on the underlying writer, followed by the bytes it
    still holds, are the writes handed to that sink, in order, without
    the writes that begin with a line feed.  No byte of a sink is lost
    otherwise, doubled, or moved behind a later one. *)
Theorem sinks_keep_their_order (cs : list Call) (i : nat) :
  List.length (origin (runCalls cs)) = List.length (under (runCalls cs)) /\
  drainedBy i (runCalls cs) ++ synchronizedWriter.b (sinks (runCalls cs) i)
    = writtenTo i cs.
Proof.
  unfold runCalls.
  assert (G : forall cs st,
             List.length (origin st) = List.length (under st) ->
             List.length (origin (fold_left step cs st))
               = List.length (under (fold_left step cs st)) /\
             drainedBy i (fold_left step cs st)
               ++ synchronizedWriter.b (sinks (fold_left step cs st) i)
             = (drainedBy i st ++ synchronizedWriter.b (sinks st i))
               ++ writtenTo i cs).
  { clear cs. induction cs as [|c cs IH]; intros st H; cbn [fold_left].
    - split; [assumption|]. now rewrite app_nil_r.
    - destruct (step_keeps_order st c i H) as [H1 H2].
      destruct (IH (step st c) H1) as [I1 I2]. split; [assumption|].
      rewrite I2, H2, <- app_assoc.
      now rewrite <- writtenTo_app. }
  destruct (G cs initShared eq_refl) as [G1 G2]. split; [assumption|].
  rewrite G2. reflexivity.
Qed.

(** ** The parser of the agent's first line, on every input *)

Lemma HasPrefix_single (c d : byte) (s : list byte) :
  bytes.HasPrefix (d :: s) [c] = Byte.eqb c d.
Proof. cbn [bytes.HasPrefix]. destruct s; apply andb_true_r. Qed.

Lemma eqb_byte_false (c d : byte) : d <> c -> Byte.eqb c d = false.
Proof.
  intros H. destruct (Byte.eqb c d) eqn:E; [|reflexivity].
  apply Byte.byte_dec_bl in E. congruence.
Qed.

Lemma bytes_Index_byte_absent (c : byte) (p : list byte) :
  ~ In c p -> bytes.Index p [c] = -1.
Proof.
  induction p as [|d p IH]; intros H; [reflexivity|].
  rewrite bytes_Index_eq, HasPrefix_single, eqb_byte_false.
  - rewrite IH; [reflexivity|]. intros Hin. apply H. now right.
  - intros ->. apply H. now left.
Qed.




Lemma SplitN2_absent (c : byte) (s : list byte) :
  ~ In c s -> bytes.SplitN2 s [c] = [s].
Proof.
  intros H. unfold bytes.SplitN2.
  now rewrite bytes_Index_byte_absent by assumption.
Qed.










Lemma Write_done (Stat : string -> bool) (s : sshAgentStdout.t) (p : list byte) :
  sshAgentStdout.done s = true ->
  sshAgentStdout.Write Stat s p = (s, None, sshAgentStdout.Return (bytes.len p) None).
Proof. intros H. unfold sshAgentStdout.Write. now rewrite H. Qed.

Lemma Write_sent_done (Stat : string -> bool) (s : sshAgentStdout.t)
                      (p : list byte) (sock : string) :
  snd (fst (sshAgentStdout.Write Stat s p)) = Some sock ->
  sshAgentStdout.done (fst (fst (sshAgentStdout.Write Stat s p))) = true.
Proof.
  unfold sshAgentStdout.Write.
  repeat match goal with
         | |- context [match ?c with _ => _ end] => destruct c
         end; cbn [fst snd sshAgentStdout.done]; congruence.
Qed.

Lemma agentCopy_done (Stat : string -> bool) (s : sshAgentStdout.t)
                     (chunks : list (list byte)) :
  sshAgentStdout.done s = true -> agentCopy Stat s chunks = (s, []).
Proof.
  intros H. induction chunks as [|p rest IH]; [reflexivity|].
  cbn [agentCopy]. now rewrite Write_done, Z.eqb_refl, IH by assumption.
Qed.

(** X12. Whatever the agent writes, in whatever chunks, and from
    whatever state of the parser, the parser sends at most one socket;
    once it is done it accepts every write in full and neither changes
    nor sends anything. *)
Theorem handshake_sends_once (Stat : string -> bool) (s : sshAgentStdout.t)
                             (chunks : list (list byte)) :
  (List.length (snd (agentCopy Stat s chunks)) <= 1)%nat /\
  (snd (agentCopy Stat s chunks) <> [] ->
   sshAgentStdout.done (fst (agentCopy Stat s chunks)) = true) /\
  (sshAgentStdout.done s = true ->
   agentCopy Stat s chunks = (s, []) /\
   forall p, sshAgentStdout.Write Stat s p
             = (s, None, sshAgentStdout.Return (bytes.len p) None)).
Proof.
  split; [|split].
  - revert s. induction chunks as [|p rest IH]; intros s; cbn [agentCopy];
      [cbn; lia|].
    pose proof (Write_sent_done Stat s p) as D.
    destruct (sshAgentStdout.Write Stat s p) as [[s' sent] r].
    cbn [fst snd] in D.
    destruct sent as [sock|].
    + specialize (D sock eq_refl).
      destruct r as [n [e|]|]; cbn [snd List.length]; try lia.
      destruct (n =? bytes.len p); cbn [snd List.length]; try lia.
      rewrite agentCopy_done by assumption. cbn. lia.
    + destruct r as [n [e|]|]; cbn [snd List.length]; try lia.
      destruct (n =? bytes.len p); cbn [snd List.length]; try lia.
      specialize (IH s'). destruct (agentCopy Stat s' rest). exact IH.
  - revert s. induction chunks as [|p rest IH]; intros s; cbn [agentCopy];
      [cbn; congruence|].
    pose proof (Write_sent_done Stat s p) as D.
    destruct (sshAgentStdout.Write Stat s p) as [[s' sent] r].
    cbn [fst snd] in D.
    destruct sent as [sock|].
    + specialize (D sock eq_refl).
      destruct r as [n [e|]|]; cbn [fst snd]; try (intros _; assumption).
      destruct (n =? bytes.len p); cbn [fst snd]; try (intros _; assumption).
      rewrite agentCopy_done by assumption. intros _. assumption.
    + destruct r as [n [e|]|]; cbn [fst snd app]; try congruence.
      destruct (n =? bytes.len p); cbn [fst snd]; try congruence.
      specialize (IH s'). destruct (agentCopy Stat s' rest). exact IH.
  - intros H. split; [now apply agentCopy_done|].
    intros p. now apply Write_done.
Qed.

(* ================================================================== *)
(** * Package [strutil]: sets of strings *)
(* ================================================================== *)

Section StringSetFacts.

Import strutil.

Lemma has_In (s : StringSet) (v : string) : has s v = true <-> In v s.
Proof.
  unfold has. rewrite existsb_exists. split.
  - intros (x & Hx & E). apply String.eqb_eq in E. now subst.
  - intros H. exists v. split; [assumption|apply String.eqb_refl].
Qed.

Lemma In_set1 (s : StringSet) (v x : string) :
  In x (set1 s v) <-> In x s \/ x = v.
Proof.
  unfold set1. destruct (has s v) eqn:E.
  - apply has_In in E. split; [tauto|]. intros [H| ->]; assumption.
  - rewrite in_app_iff. cbn [In]. intuition.
Qed.

Lemma NoDup_set1 (s : StringSet) (v : string) : NoDup s -> NoDup (set1 s v).
Proof.
  intros H. unfold set1. destruct (has s v) eqn:E; [assumption|].
  apply NoDup_app; [assumption|repeat constructor; intros []| ].
  intros x Hx [<-|[]]. apply has_In in Hx. congruence.
Qed.

Lemma In_Add (v : list string) (s : StringSet) (x : string) :
  In x (Add s v) <-> In x s \/ In x v.
Proof.
  unfold Add. revert s; induction v as [|k v IH]; intros s; cbn [fold_left In].
  - tauto.
  - rewrite IH, In_set1. intuition.
Qed.

Lemma NoDup_Add (v : list string) (s : StringSet) : NoDup s -> NoDup (Add s v).
Proof.
  unfold Add. revert s; induction v as [|k v IH]; intros s H; cbn [fold_left];
    [assumption|]. now apply IH, NoDup_set1.
Qed.

Lemma In_delete1 (s : StringSet) (v x : string) :
  In x (delete1 s v) <-> In x s /\ x <> v.
Proof.
  unfold delete1. rewrite filter_In, negb_true_iff, String.eqb_neq.
  intuition.
Qed.

Lemma In_Remove (v : list string) (s : StringSet) (x : string) :
  In x (Remove s v) <-> In x s /\ ~ In x v.
Proof.
  unfold Remove. revert s; induction v as [|k v IH]; intros s;
    cbn [fold_left In].
  - tauto.
  - rewrite IH, In_delete1. intuition.
Qed.

Lemma NoDup_Remove (v : list string) (s : StringSet) :
  NoDup s -> NoDup (Remove s v).
Proof.
  unfold Remove. revert s; induction v as [|k v IH]; intros s H;
    cbn [fold_left]; [assumption|]. apply IH. now apply NoDup_filter.
Qed.

Lemma Contains_true (s : StringSet) (v : list string) :
  Contains s v = true <-> exists k, In k v /\ In k s.
Proof.
  induction v as [|k v IH]; cbn [Contains In].
  - split; [discriminate|]. now intros (k & [] & _).
  - destruct (has s k) eqn:E.
    + apply has_In in E. split; [|reflexivity]. intros _. exists k. tauto.
    + rewrite IH. split.
      * intros (x & Hx & Hs). exists x. tauto.
      * intros (x & [<-|Hx] & Hs).
        -- apply has_In in Hs. congruence.
        -- exists x. tauto.
Qed.

(** X13. A StringSet behaves as a set: it holds a string after [Add]
    exactly when it held it before or the string is added; after
    [Remove] exactly when it held it before and the string is not
    removed; [NewStringSet] holds its arguments; [Contains] is true
    exactly when one of its arguments is held, and false without
    arguments; and no key is ever held twice. *)
Theorem StringSet_membership (s : StringSet) (v : list string) (x : string) :
  (In x (NewStringSet v) <-> In x v) /\
  (In x (Add s v) <-> In x s \/ In x v) /\
  (In x (Remove s v) <-> In x s /\ ~ In x v) /\
  (Contains s v = true <-> exists k, In k v /\ In k s) /\
  Contains s [] = false /\
  NoDup (NewStringSet v) /\
  (NoDup s -> NoDup (Add s v) /\ NoDup (Remove s v)).
Proof.
  split; [unfold NewStringSet; rewrite In_Add; cbn [In]; tauto|].
  split; [apply In_Add|].
  split; [apply In_Remove|].
  split; [apply Contains_true|].
  split; [reflexivity|].
  split; [apply NoDup_Add; constructor|].
  intros H. split; [now apply NoDup_Add|now apply NoDup_Remove].
Qed.

End StringSetFacts.

Section SortedStringsFacts.

Import strutil.

Lemma string_compare_refl (s : string) : String.compare s s = Eq.
Proof.
  induction s as [|c s IH]; cbn; [reflexivity|].
  unfold Ascii.compare. now rewrite N.compare_refl.
Qed.

Lemma string_compare_lt_trans (a b c : string) :
  String.compare a b = Lt -> String.compare b c = Lt -> String.compare a c = Lt.
Proof.
  revert b c; induction a as [|x a IH]; intros [|y b] [|z c]; cbn;
    try congruence.
  unfold Ascii.compare.
  destruct (N.compare_spec (N_of_ascii x) (N_of_ascii y));
    destruct (N.compare_spec (N_of_ascii y) (N_of_ascii z));
    destruct (N.compare_spec (N_of_ascii x) (N_of_ascii z));
    try discriminate; try lia; try reflexivity.
  apply IH.
Qed.

Lemma string_leb_trans (a b c : string) :
  String.leb a b = true -> String.leb b c = true -> String.leb a c = true.
Proof.
  unfold String.leb.
  destruct (String.compare a b) eqn:E1; try discriminate;
    destruct (String.compare b c) eqn:E2; try discriminate; intros _ _.
  - apply String.compare_eq_iff in E1, E2. subst.
    now rewrite string_compare_refl.
  - apply String.compare_eq_iff in E1. subst. now rewrite E2.
  - apply String.compare_eq_iff in E2. subst. now rewrite E1.
  - now rewrite (string_compare_lt_trans a b c).
Qed.

Lemma string_leb_ltb (a b : string) :
  String.leb a b = true -> a <> b -> String.ltb a b = true.
Proof.
  unfold String.leb, String.ltb.
  destruct (String.compare a b) eqn:E; try discriminate; [|reflexivity].
  apply String.compare_eq_iff in E. congruence.
Qed.

Lemma sort_StronglySorted (l : list string) :
  StronglySorted (fun x y => String.leb x y = true) (StringSort.sort l).
Proof.
  apply Sorted_StronglySorted.
  - intros a b c. apply string_leb_trans.
  - apply StringSort.Sorted_sort.
Qed.

Lemma In_sort (l : list string) (x : string) :
  In x (StringSort.sort l) <-> In x l.
Proof.
  split; apply Permutation_in;
    [apply Permutation_sym|]; apply StringSort.Permuted_sort.
Qed.

Lemma NoDup_sort (l : list string) : NoDup l -> NoDup (StringSort.sort l).
Proof. apply Permutation_NoDup, StringSort.Permuted_sort. Qed.

(** An ascending list without repetition is determined by its
    elements. *)
Lemma ascending_unique (l1 l2 : list string) :
  StronglySorted (fun x y => String.leb x y = true) l1 ->
  StronglySorted (fun x y => String.leb x y = true) l2 ->
  NoDup l1 -> NoDup l2 ->
  (forall x, In x l1 <-> In x l2) -> l1 = l2.
Proof.
  revert l2; induction l1 as [|a l1 IH]; intros [|b l2] S1 S2 N1 N2 E.
  - reflexivity.
  - destruct (proj2 (E b) (or_introl eq_refl)).
  - destruct (proj1 (E a) (or_introl eq_refl)).
  - inversion S1 as [|? ? S1' F1]; inversion S2 as [|? ? S2' F2];
      inversion N1 as [|? ? Na N1']; inversion N2 as [|? ? Nb N2']; subst.
    rewrite Forall_forall in F1, F2.
    assert (a = b).
    { destruct (proj1 (E a) (or_introl eq_refl)) as [|Ha]; [congruence|].
      destruct (proj2 (E b) (or_introl eq_refl)) as [|Hb]; [congruence|].
      apply String.leb_antisym; [now apply F1|now apply F2]. }
    subst b. f_equal. apply IH; try assumption.
    intros x. split; intros Hx.
    + destruct (proj1 (E x) (or_intror Hx)) as [<-|]; [contradiction|assumption].
    + destruct (proj2 (E x) (or_intror Hx)) as [<-|]; [contradiction|assumption].
Qed.

Lemma ascending_strict (l : list string) :
  StronglySorted (fun x y => String.leb x y = true) l -> NoDup l ->
  StronglySorted (fun x y => String.ltb x y = true) l.
Proof.
  induction 1 as [|a l S IH F]; intros N; constructor;
    inversion N as [|? ? Na N']; subst; [now apply IH|].
  rewrite Forall_forall in *. intros x Hx.
  apply string_leb_ltb; [now apply F|]. intros ->. contradiction.
Qed.

(** X14. [Unique] returns the strings of its argument, each one once, in
    strictly ascending order; the result depends on which strings the
    argument holds only, not on their order or number.  [SortedStrings]
    likewise returns the keys of a set in strictly ascending order,
    whatever the order in which the map yields them. *)
Theorem Unique_canonical (a b : list string) (s1 s2 : StringSet) :
  (forall x, In x (Unique a) <-> In x a) /\
  StronglySorted (fun x y => String.ltb x y = true) (Unique a) /\
  ((forall x, In x a <-> In x b) -> Unique a = Unique b) /\
  (NoDup s1 -> StronglySorted (fun x y => String.ltb x y = true) (SortedStrings s1)) /\
  (NoDup s1 -> NoDup s2 -> (forall x, In x s1 <-> In x s2) ->
   SortedStrings s1 = SortedStrings s2).
Proof.
  assert (Nn : forall v, NoDup (NewStringSet v))
    by (intros v; apply NoDup_Add; constructor).
  assert (In_new : forall v x, In x (NewStringSet v) <-> In x v).
  { intros v x. unfold NewStringSet. rewrite In_Add. cbn [In]. tauto. }
  unfold Unique, SortedStrings.
  split; [intros x; now rewrite In_sort, In_new|].
  split; [apply ascending_strict;
          [apply sort_StronglySorted|apply NoDup_sort, Nn]|].
  split.
  { intros E. apply ascending_unique;
      try apply sort_StronglySorted; try apply NoDup_sort, Nn.
    intros x. now rewrite !In_sort, !In_new. }
  split.
  { intros N. apply ascending_strict;
      [apply sort_StronglySorted|now apply NoDup_sort]. }
  intros N1 N2 E. apply ascending_unique;
    try apply sort_StronglySorted; try now apply NoDup_sort.
  intros x. now rewrite !In_sort.
Qed.

(** X14 on [TestUnique] and on the two orders of one set. *)
Lemma Unique_canonical_witness :
  Unique ["foo"; "foo"] = Unique ["foo"] /\
  SortedStrings ["foo"; "baz"] = SortedStrings ["baz"; "foo"].
Proof.
  split.
  - apply (proj1 (proj2 (proj2 (Unique_canonical ["foo"; "foo"] ["foo"] [] [])))).
    cbn; tauto.
  - apply (proj2 (proj2 (proj2 (proj2
             (Unique_canonical [] [] ["foo"; "baz"] ["baz"; "foo"]))))).
    + repeat constructor; cbn; intuition discriminate.
    + repeat constructor; cbn; intuition discriminate.
    + cbn; tauto.
Defined.

Example TestStringSet_ex :
  SortedStrings (Remove (Add (NewStringSet ["foo"; "foo"; "bar"]) ["baz"]) ["bar"])
    = ["baz"; "foo"] /\
  Unique ["foo"; "foo"] = ["foo"] /\
  SortedStrings (Merge [["foo"; "bar"]; ["foo"; "baz"]]) = ["bar"; "baz"; "foo"] /\
  SortedStrings (Intersect [["foo"; "bar"]; ["foo"; "baz"]]) = ["foo"] /\
  option_map SortedStrings (NewStringSetFromFile ["hello"; "world"])
    = Some ["hello"; "world"].
Proof. repeat split. Qed.

End SortedStringsFacts.

Section SetOperationsFacts.

Import strutil.

Lemma In_Merge_from (lists : list (list string)) (s : StringSet) (x : string) :
  In x (fold_left (fun set list => Add set list) lists s) <->
  In x s \/ exists l, In l lists /\ In x l.
Proof.
  revert s; induction lists as [|l lists IH]; intros s; cbn [fold_left].
  - split; [tauto|]. intros [H|(l & [] & _)]. assumption.
  - rewrite IH, In_Add. split.
    + intros [[H|H]|(l' & H1 & H2)]; [tauto| |].
      * right. exists l. cbn; tauto.
      * right. exists l'. cbn; tauto.
    + intros [H|(l' & [<-|H1] & H2)]; [tauto|tauto|].
      right. exists l'. tauto.
Qed.

(** X15. [Merge] holds a string exactly when one of the lists holds it;
    it holds no string twice, and the merge of no list is empty. *)
Theorem Merge_union (lists : list (list string)) (x : string) :
  (In x (Merge lists) <-> exists l, In l lists /\ In x l) /\
  NoDup (Merge lists) /\
  Merge [] = [].
Proof.
  unfold Merge. split; [|split; [|reflexivity]].
  - rewrite In_Merge_from. cbn [NewStringSet Add fold_left In]. tauto.
  - assert (G : forall s, NoDup s ->
               NoDup (fold_left (fun set list => Add set list) lists s)).
    { induction lists as [|l lists IH]; intros s N; cbn [fold_left];
        [assumption|]. now apply IH, NoDup_Add. }
    apply G. constructor.
Qed.

Lemma In_keep_from (P : string -> bool) (listA : list string)
                   (acc : StringSet) (x : string) :
  In x (fold_left (fun acc k => if P k then Add acc [k] else acc) listA acc) <->
  In x acc \/ (In x listA /\ P x = true).
Proof.
  revert acc; induction listA as [|k listA IH]; intros acc; cbn [fold_left In].
  - tauto.
  - rewrite IH. destruct (P k) eqn:E.
    + rewrite In_Add. cbn [In]. split.
      * intros [[H|[<-|[]]]|H]; tauto.
      * intros [H|[[<-|H] Hp]]; tauto.
    + split; [tauto|]. intros [H|[[<-|H] Hp]]; [tauto|congruence|tauto].
Qed.

Lemma NoDup_keep_from (P : string -> bool) (listA : list string)
                      (acc : StringSet) :
  NoDup acc ->
  NoDup (fold_left (fun acc k => if P k then Add acc [k] else acc) listA acc).
Proof.
  revert acc; induction listA as [|k listA IH]; intros acc N; cbn [fold_left];
    [assumption|]. apply IH. destruct (P k); [now apply NoDup_Add|assumption].
Qed.

(** X16. [Intersect] holds a string exactly when there is at least one
    list and every list holds the string; the intersection of no list is
    empty, and no string is held twice, also when a list repeats it. *)
Theorem Intersect_common (lists : list (list string)) (x : string) :
  (In x (Intersect lists) <->
     lists <> [] /\ forall l, In l lists -> In x l) /\
  NoDup (Intersect lists) /\
  Intersect [] = [].
Proof.
  pose (all := map NewStringSet lists).
  pose (P := fun k => forallb (fun listB => Contains listB [k]) all).
  assert (EI : Intersect lists =
               fold_left
                 (fun intersection listA =>
                    fold_left
                      (fun intersection k =>
                         if P k then Add intersection [k] else intersection)
                      listA intersection) all (NewStringSet []))
    by reflexivity.
  rewrite EI. clear EI.
  assert (HP : forall k, P k = true <-> forall l, In l lists -> In k l).
  { intros k. unfold P, all. rewrite forallb_forall. split.
    - intros H l Hl.
      specialize (H (NewStringSet l) (in_map _ _ _ Hl)).
      apply Contains_true in H. destruct H as (k' & [<-|[]] & Hk).
      unfold NewStringSet in Hk. rewrite In_Add in Hk. cbn [In] in Hk. tauto.
    - intros H B HB. apply in_map_iff in HB. destruct HB as (l & <- & Hl).
      apply Contains_true. exists k. split; [now left|].
      unfold NewStringSet. rewrite In_Add. right. now apply H. }
  assert (G : forall (sets : list StringSet) (acc : StringSet),
             In x (fold_left
                     (fun intersection listA =>
                        fold_left
                          (fun intersection k =>
                             if P k then Add intersection [k] else intersection)
                          listA intersection) sets acc) <->
             In x acc \/ ((exists A, In A sets /\ In x A) /\ P x = true)).
  { induction sets as [|A sets IH]; intros acc; cbn [fold_left].
    - split; [tauto|]. intros [H|[(A & [] & _) _]]. assumption.
    - rewrite IH, In_keep_from. split.
      + intros [[H|[H1 H2]]|[(B & H1 & H2) H3]]; [tauto| |].
        * right. split; [exists A; cbn; tauto|assumption].
        * right. split; [exists B; cbn; tauto|assumption].
      + intros [H|[(B & [<-|H1] & H2) H3]]; [tauto|tauto|].
        right. split; [exists B; tauto|assumption]. }
  split; [|split; [|reflexivity]].
  - rewrite G, HP. cbn [NewStringSet Add fold_left In]. split.
    + intros [[]|[(A & HA & _) H]]. split; [|assumption].
      unfold all in HA. destruct lists; [destruct HA|discriminate].
    + intros [Hne H]. right. split; [|assumption].
      destruct lists as [|l lists]; [congruence|].
      exists (NewStringSet l). split; [now left|].
      unfold NewStringSet. rewrite In_Add. right. apply H. now left.
  - assert (N : forall (sets : list StringSet) (acc : StringSet),
               NoDup acc ->
               NoDup (fold_left
                        (fun intersection listA =>
                           fold_left
                             (fun intersection k =>
                                if P k then Add intersection [k]
                                else intersection)
                             listA intersection) sets acc)).
    { induction sets as [|A sets IH]; intros acc N; cbn [fold_left];
        [assumption|]. apply IH. now apply NoDup_keep_from. }
    apply N. constructor.
Qed.

Lemma addLines_spec (lines : list string) (s : StringSet) :
  exists set,
    addLines s lines = Some set /\
    (NoDup s -> NoDup set) /\
    forall x, In x set <->
              In x s \/ (In x lines /\ x <> "" /\ forall r, x <> String "#" r).
Proof.
  revert s; induction lines as [|t lines IH]; intros s; cbn [addLines].
  - exists s. split; [reflexivity|]. split; [tauto|]. cbn [In]. tauto.
  - destruct t as [|c t].
    + cbn [strings.len String.length Z.of_nat Z.eqb].
      destruct (IH s) as (set & E & N & H). exists set.
      split; [assumption|]. split; [assumption|].
      intros x. rewrite H. cbn [In]. split; [tauto|].
      intros [Hx|[[<-|Hx] [Hne Hh]]]; [tauto|congruence|tauto].
    + assert (L : (strings.len (String c t) =? 0) = false).
      { unfold strings.len. cbn [String.length]. apply Z.eqb_neq. lia. }
      rewrite L. cbn [String.get].
      destruct (Ascii.eqb_spec c "#") as [->|Hc].
      * destruct (IH s) as (set & E & N & H). exists set.
        split; [assumption|]. split; [assumption|].
        intros x. rewrite H. cbn [In]. split; [tauto|].
        intros [Hx|[[<-|Hx] [Hne Hh]]]; [tauto| |tauto].
        now elim (Hh t).
      * destruct (IH (Add s [String c t])) as (set & E & N & H). exists set.
        split; [assumption|]. split; [intros Ns; now apply N, NoDup_Add|].
        intros x. rewrite H, In_Add. cbn [In]. split.
        -- intros [[Hx|[<-|[]]]|Hx]; [tauto| |tauto].
           right. split; [tauto|]. split; [discriminate|]. congruence.
        -- intros [Hx|[[<-|Hx] Hg]]; tauto.
Qed.

(** X17. [NewStringSetFromFile] never reads outside a line: on every
    file that can be read it returns a set, which holds exactly the
    lines of the file that are not empty and do not begin with a hash
    sign, each one once. *)
Theorem NewStringSetFromFile_lines (lines : list string) :
  exists set,
    NewStringSetFromFile lines = Some set /\
    NoDup set /\
    forall x, In x set <->
              In x lines /\ x <> "" /\ forall r, x <> String "#" r.
Proof.
  unfold NewStringSetFromFile.
  destruct (addLines_spec lines (NewStringSet [])) as (set & E & N & H).
  exists set. split; [assumption|]. split; [apply N; constructor|].
  intros x. rewrite H. cbn [NewStringSet Add fold_left In]. tauto.
Qed.

End SetOperationsFacts.

(* ================================================================== *)
(** * Reading the targets and the jump hosts *)
(* ================================================================== *)

Lemma skipsLine_isTarget (t : string) (exclude : option strutil.StringSet) :
  skipsLine t exclude = Some (negb (isTarget exclude t)).
Proof.
  unfold skipsLine, isTarget. destruct t as [|c t]; [reflexivity|].
  cbn [String.eqb String.get]. destruct (Ascii.eqb c "#"); [reflexivity|].
  destruct exclude as [set|]; [|reflexivity].
  cbn [strutil.Contains negb andb]. now destruct (strutil.has set (String c t)).
Qed.

(** X18. [Read] never reads outside a line.  It sends the lines that are
    not empty, do not begin with a hash sign and are not in the
    exclusion set, in the order of the input and as often as they occur;
    without an exclusion set (a nil set) nothing is excluded. *)
Theorem Read_targets (lines : list string) (exclude : option strutil.StringSet) :
  Read lines exclude = Some (filter (isTarget exclude) lines) /\
  forall t, In t (filter (isTarget exclude) lines) <->
            In t lines /\ t <> "" /\ (forall r, t <> String "#" r) /\
            (forall set, exclude = Some set -> ~ In t set).
Proof.
  split.
  - induction lines as [|t lines IH]; cbn [Read filter]; [reflexivity|].
    rewrite skipsLine_isTarget, IH.
    now destruct (isTarget exclude t).
  - intros t. rewrite filter_In. unfold isTarget.
    destruct t as [|c t].
    + split; [intros [_ H]; discriminate|]. intros (_ & H & _). congruence.
    + rewrite andb_true_iff, negb_true_iff.
      destruct (Ascii.eqb_spec c "#") as [->|Hc].
      * split; [intros (_ & H & _); discriminate|].
        intros (_ & _ & H & _). now elim (H t).
      * split.
        -- intros (Hin & _ & He). split; [assumption|].
           split; [discriminate|]. split; [congruence|].
           intros set ->. rewrite negb_true_iff in He.
           intros Hs. apply has_In in Hs. congruence.
        -- intros (Hin & _ & _ & He). split; [assumption|].
           split; [reflexivity|].
           destruct exclude as [set|]; [|reflexivity].
           rewrite negb_true_iff.
           destruct (strutil.has set (String c t)) eqn:E; [|reflexivity].
           apply has_In in E. now elim (He set eq_refl).
Qed.

Example TestRead_ex :
  Read ["hello"; "world"] (Some (strutil.NewStringSet ["world"])) = Some ["hello"] /\
  Read [""; "# note"; "a"; "a"] None = Some ["a"; "a"].
Proof. split; reflexivity. Qed.

(** X19. The jump hosts that the [exec] command hands to [JumpExec] are
    the hosts of the jump host file that are not in the exclusion set,
    each one once, in strictly ascending order; without an exclusion
    file no host is removed; and when every host is excluded there is
    no jump host left, which [JumpSpec.Validate] answers with
    ErrNoJumpHosts for an otherwise valid JumpSpec. *)
Theorem jumpHostsOf_excludes
    (hosts : strutil.StringSet) (exclude : option strutil.StringSet)
    (s : Spec) (key cmd : string) :
  NoDup hosts ->
  let js := {| JumpSpec_Spec := s; JumpHostsKeyFile := key;
               JumpCommand := cmd; JumpHosts := jumpHostsOf hosts exclude |} in
  (forall h, In h (jumpHostsOf hosts exclude) <->
             In h hosts /\ forall set, exclude = Some set -> ~ In h set) /\
  StronglySorted (fun x y => String.ltb x y = true) (jumpHostsOf hosts exclude) /\
  (Validate s = None -> cmd <> "" ->
   (forall h, In h hosts -> exists set, exclude = Some set /\ In h set) ->
   JumpValidate js = Some ErrNoJumpHosts).
Proof.
  intros N. cbv zeta.
  assert (M : forall h, In h (jumpHostsOf hosts exclude) <->
                        In h hosts /\ forall set, exclude = Some set -> ~ In h set).
  { intros h. unfold jumpHostsOf, strutil.SortedStrings.
    rewrite In_sort, In_Remove. destruct exclude as [set|].
    - rewrite In_sort. split.
      + intros [H1 H2]. split; [assumption|]. now intros ? [= <-].
      + intros [H1 H2]. split; [assumption|]. now apply H2.
    - cbn [In]. split; [|tauto]. intros [H _]. split; [assumption|].
      discriminate. }
  split; [exact M|]. split.
  - unfold jumpHostsOf, strutil.SortedStrings. apply ascending_strict.
    + apply sort_StronglySorted.
    + now apply NoDup_sort, NoDup_Remove.
  - intros V C All. unfold JumpValidate. cbn [JumpSpec_Spec JumpCommand JumpHosts].
    rewrite V. apply String.eqb_neq in C. rewrite C.
    destruct (jumpHostsOf hosts exclude) as [|h l] eqn:E; [reflexivity|].
    destruct (proj1 (M h) (or_introl eq_refl)) as [H1 H2].
    destruct (All h H1) as (set & Es & Hs). now elim (H2 set Es).
Qed.

(** X19 on two hosts, one of them excluded. *)
Lemma jumpHostsOf_excludes_witness :
  In "a" (jumpHostsOf ["b"; "a"] (Some ["b"])) /\
  ~ In "b" (jumpHostsOf ["b"; "a"] (Some ["b"])).
Proof.
  pose proof (jumpHostsOf_excludes ["b"; "a"] (Some ["b"])
                (mkSpec "echo" [] 1 1 1 1) "" "ssh {.J}"
                ltac:(repeat constructor; cbn; intuition discriminate)) as H.
  cbv zeta in H. destruct H as [M _]. split.
  - apply M. split; [cbn; tauto|].
    intros set [= <-]. cbn. intuition discriminate.
  - intros Hb. apply M in Hb. destruct Hb as [_ Hb].
    apply (Hb ["b"] eq_refl). now left.
Defined.

(* ================================================================== *)
(** * Package [freq]: grouping the results *)
(* ================================================================== *)

Section FreqFacts.

Import freq.

Variable KeyReader : Result -> string.

Lemma targetsOf_record (m : groups) (k t k' : string) :
  targetsOf (record m k t) k' =
    if String.eqb k k'
    then Some (match targetsOf m k with
               | Some targets => targets ++ [t]
               | None => [t]
               end)
    else targetsOf m k'.
Proof.
  induction m as [|[k0 ts] m IH]; cbn [record targetsOf].
  - reflexivity.
  - destruct (String.eqb_spec k0 k) as [->|Hk]; cbn [targetsOf].
    + destruct (String.eqb_spec k k'); reflexivity.
    + destruct (String.eqb_spec k0 k') as [->|Hk'].
      * destruct (String.eqb_spec k k'); [congruence|reflexivity].
      * exact IH.
Qed.

Lemma keys_record (m : groups) (k t : string) :
  map fst (record m k t) =
    if existsb (String.eqb k) (map fst m) then map fst m else map fst m ++ [k].
Proof.
  induction m as [|[k0 ts] m IH]; cbn [record map fst existsb app];
    [reflexivity|].
  rewrite (String.eqb_sym k k0).
  destruct (String.eqb k0 k); cbn [map fst orb]; [reflexivity|].
  rewrite IH. now destruct (existsb (String.eqb k) (map fst m)).
Qed.

Lemma NoDup_record (m : groups) (k t : string) :
  NoDup (map fst m) -> NoDup (map fst (record m k t)).
Proof.
  intros N. rewrite keys_record.
  destruct (existsb (String.eqb k) (map fst m)) eqn:E; [assumption|].
  apply NoDup_app; [assumption|repeat constructor; intros []|].
  intros x Hx [->|[]].
  assert (existsb (String.eqb x) (map fst m) = true); [|congruence].
  apply existsb_exists. exists x. split; [assumption|apply String.eqb_refl].
Qed.

Lemma targetsOf_In (m : groups) (k : string) (targets : list string) :
  NoDup (map fst m) ->
  (In (k, targets) m <-> targetsOf m k = Some targets).
Proof.
  induction m as [|[k0 ts] m IH]; intros N; cbn [targetsOf In map fst] in *.
  - split; [tauto|discriminate].
  - inversion N as [|? ? Hk N']; subst.
    destruct (String.eqb_spec k0 k) as [->|Hne].
    + split.
      * intros [[= <-]|H]; [reflexivity|].
        elim Hk. apply in_map_iff. now exists (k, targets).
      * intros [= <-]. now left.
    + rewrite <- (IH N'). split; [|tauto].
      intros [[= <- <-]|H]; [congruence|assumption].
Qed.

Lemma collect_snoc (results : list Result) (r : Result) :
  collect KeyReader (results ++ [r]) =
  record (collect KeyReader results) (KeyReader r) (Target r).
Proof. unfold collect. now rewrite fold_left_app. Qed.

Lemma NoDup_collect (results : list Result) :
  NoDup (map fst (collect KeyReader results)).
Proof.
  induction results as [|r results IH] using rev_ind; [constructor|].
  rewrite collect_snoc. now apply NoDup_record.
Qed.

(** The targets recorded for a key are the targets of the results with
    that key, in the order of the input; a key without a result has no
    entry. *)
Lemma targetsOf_collect (results : list Result) (k : string) :
  targetsOf (collect KeyReader results) k =
    match filter (fun r => String.eqb (KeyReader r) k) results with
    | [] => None
    | rs => Some (map Target rs)
    end.
Proof.
  induction results as [|r results IH] using rev_ind; [reflexivity|].
  rewrite collect_snoc, targetsOf_record, filter_app. cbn [filter].
  destruct (String.eqb_spec (KeyReader r) k) as [<-|Hk].
  - rewrite IH.
    destruct (filter (fun r0 => String.eqb (KeyReader r0) (KeyReader r)) results)
      as [|r0 rs]; [reflexivity|].
    cbn [app map]. now rewrite map_app.
  - now rewrite app_nil_r.
Qed.

Lemma count_record (m : groups) (k t : string) :
  list_sum (map (fun e => List.length (snd e)) (record m k t)) =
  S (list_sum (map (fun e => List.length (snd e)) m)).
Proof.
  unfold list_sum.
  induction m as [|[k0 ts] m IH]; cbn [record map snd fold_right];
    [reflexivity|].
  destruct (String.eqb k0 k); cbn [map snd fold_right].
  - rewrite length_app. cbn [List.length]. lia.
  - lia.
Qed.

Lemma list_sum_Permutation (l1 l2 : list nat) :
  Permutation l1 l2 -> list_sum l1 = list_sum l2.
Proof.
  unfold list_sum. induction 1; cbn [fold_right] in *; lia.
Qed.

(** X20. The items that the readers of [freq] return partition the
    results by key, in whatever order the map and the sorter leave
    them: no two items have the same value; the targets of an item are
    the targets of the results with that key, in the order of the input,
    and there is at least one; every result is counted in the item of
    its key; and the numbers of targets add up to the number of
    results. *)
Theorem freq_items_partition (results : list Result) (out : list Item) :
  Permutation out (items (collect KeyReader results)) ->
  NoDup (map Value out) /\
  (forall it, In it out ->
     Targets it <> [] /\
     Targets it =
       map Target (filter (fun r => String.eqb (KeyReader r) (Value it)) results)) /\
  (forall r, In r results ->
     exists it, In it out /\ Value it = KeyReader r /\ In (Target r) (Targets it)) /\
  list_sum (map (fun it => List.length (Targets it)) out) = List.length results /\
  (results = [] -> out = []).
Proof.
  intros P.
  set (m := collect KeyReader results) in *.
  assert (N : NoDup (map fst m)) by apply NoDup_collect.
  assert (Hin : forall it, In it out <-> In (Value it, Targets it) m).
  { intros it. split; intros H.
    - apply (Permutation_in _ P) in H. unfold items in H.
      apply in_map_iff in H. destruct H as ([k ts] & <- & H). exact H.
    - apply (Permutation_in _ (Permutation_sym P)). unfold items.
      apply in_map_iff. exists (Value it, Targets it).
      split; [now destruct it|assumption]. }
  split; [|split; [|split; [|split]]].
  - apply (Permutation_NoDup (Permutation_sym (Permutation_map Value P))).
    unfold items. rewrite map_map. cbn [Value]. exact N.
  - intros it H. apply Hin, (targetsOf_In _ _ _ N) in H.
    subst m. rewrite targetsOf_collect in H.
    destruct (filter _ results) as [|r0 rs]; [discriminate|].
    injection H as H. rewrite <- H. split; [discriminate|reflexivity].
  - intros r Hr.
    pose proof (targetsOf_collect results (KeyReader r)) as T.
    assert (Hf : In r (filter (fun r0 => String.eqb (KeyReader r0) (KeyReader r))
                              results)).
    { apply filter_In. split; [assumption|apply String.eqb_refl]. }
    destruct (filter _ results) as [|r0 rs] eqn:F; [destruct Hf|].
    exists {| Value := KeyReader r; Targets := map Target (r0 :: rs) |}.
    split; [|split; [reflexivity|now apply in_map]].
    apply Hin. cbn [Value Targets]. now apply (targetsOf_In _ _ _ N).
  - rewrite (list_sum_Permutation _ _
               (Permutation_map (fun it => List.length (Targets it)) P)).
    unfold items. rewrite map_map. cbn [Targets]. subst m. clear.
    induction results as [|r results IH] using rev_ind; [reflexivity|].
    rewrite collect_snoc, count_record, IH, length_app. cbn [List.length]. lia.
  - intros E. subst results. cbn in P.
    now apply Permutation_sym, Permutation_nil in P.
Qed.

End FreqFacts.

(** X20 at [TestExitStatus]: two items, for the status 255 with the
    targets a and b, and for the status 1 with the target c. *)
Lemma freq_items_partition_witness :
  let results := [ {| Target := "a"; ExitStatus := 255; Stdout := ""; Stderr := ""; Err := "" |};
                   {| Target := "b"; ExitStatus := 255; Stdout := ""; Stderr := ""; Err := "" |};
                   {| Target := "c"; ExitStatus := 1; Stdout := ""; Stderr := ""; Err := "" |} ] in
  freq.items (freq.collect freq.exitStatusKey results) =
    [ {| freq.Value := "255"; freq.Targets := ["a"; "b"] |};
      {| freq.Value := "1"; freq.Targets := ["c"] |} ] /\
  NoDup (map freq.Value (freq.items (freq.collect freq.exitStatusKey results))).
Proof.
  cbv zeta. split; [reflexivity|].
  exact (proj1 (freq_items_partition freq.exitStatusKey _ _ (Permutation_refl _))).
Defined.

(* ================================================================== *)
(** * The remote shell of the default jump command *)
(* ================================================================== *)





(** X12 once the socket of a running agent has been sent. *)
Lemma handshake_sends_once_witness :
  agentCopy (fun _ => true)
            {| sshAgentStdout.done := true; sshAgentStdout.b := bytesOf "x" |}
            [bytesOf "SSH_AUTH_SOCK=/tmp/b;" ++ [x0a]]
  = ({| sshAgentStdout.done := true; sshAgentStdout.b := bytesOf "x" |}, []).
Proof.
  exact (proj1 (proj2 (proj2
           (handshake_sends_once (fun _ => true)
              {| sshAgentStdout.done := true; sshAgentStdout.b := bytesOf "x" |}
              [bytesOf "SSH_AUTH_SOCK=/tmp/b;" ++ [x0a]])) eq_refl)).
Defined.

(* ================================================================== *)
(** * The log of a jump host *)
(* ================================================================== *)

Lemma strings_Index_app_absent (c : ascii) (a r : string) :
  strings.Index a (String c EmptyString) = -1 ->
  strings.Index r (String c EmptyString) = -1 ->
  strings.Index (a ++ r) (String c EmptyString) = -1.
Proof.
  intros Ha Hr. now rewrite (strings_Index_behind c "" a r Ha), Hr.
Qed.

Lemma append_empty_r (x : string) : (x ++ "")%string = x.
Proof. induction x as [|c x IH]; cbn; [reflexivity|now rewrite IH]. Qed.

Lemma logWritten_cons (jumphost text : string) (lines : list string) :
  logWritten jumphost (text :: lines) =
  ((jumphost ++ ": " ++ text) ++ logWritten jumphost lines)%string.
Proof.
  unfold logWritten. cbn [map String.concat].
  destruct (map _ lines) as [|x l]; cbn [String.concat]; [|reflexivity].
  induction (jumphost ++ ": " ++ text)%string as [|c x IH]; cbn;
    [reflexivity|now rewrite <- IH].
Qed.

(** X22. The log of a jump host never ends a line: for a jump host
    whose address holds no line feed, whatever lines the remote shell
    writes to its standard error, nothing that the log pipe writes holds
    a line feed; every line is written behind the address and a colon,
    directly behind the line before it. *)
Theorem logWritten_one_line (jumphost : string) (lines : list string) :
  strings.Index jumphost LF = -1 ->
  (forall text, In text lines -> strings.Index text LF = -1) ->
  strings.Index (logWritten jumphost lines) LF = -1 /\
  forall text, logWritten jumphost (lines ++ [text]) =
               (logWritten jumphost lines ++ jumphost ++ ": " ++ text)%string.
Proof.
  intros Hh Hl. split.
  - induction lines as [|text lines IH]; [reflexivity|].
    rewrite logWritten_cons. unfold LF in *.
    repeat apply strings_Index_app_absent;
      try assumption; try reflexivity.
    + apply Hl. now left.
    + apply IH. intros t Ht. apply Hl. now right.
  - intros text. clear Hl. induction lines as [|t lines IH].
    + cbn [app]. rewrite logWritten_cons.
      change (logWritten jumphost []) with EmptyString.
      now rewrite append_empty_r.
    + cbn [app]. rewrite !logWritten_cons, IH, !append_assoc. reflexivity.
Qed.

(** X22 on two lines of one jump host. *)
Lemma logWritten_one_line_witness :
  logWritten "jump1" ["denied"; "closed"] = "jump1: deniedjump1: closed" /\
  strings.Index (logWritten "jump1" ["denied"; "closed"]) LF = -1.
Proof.
  split; [reflexivity|].
  apply (logWritten_one_line "jump1" ["denied"; "closed"]); [reflexivity|].
  intros text [<-|[<-|[]]]; reflexivity.
Defined.
